(** * Verification of the mcp-datadog core: TTL/LRU cache, retrying request
    executor, and the JSON-RPC protocol engine. *)

From stdpp Require Import base gmap strings list fin_maps.

(* ===================================================================== *)
(** ** src/error.rs *)
(* ===================================================================== *)

(** [DatadogError]; the payloads of the library errors ([reqwest::Error],
    [serde_json::Error]) are kept as their display text. *)
Inductive DatadogError :=
  | ApiError (msg : string)
  | AuthError (msg : string)
  | DateParseError (msg : string)
  | NetworkError (e : string)
  | JsonError (e : string)
  | InvalidInput (msg : string)
  | RateLimitError
  | TimeoutError.

(** Rust's [Result<A, E>]. *)
Inductive result (A E : Type) :=
  | Ok (a : A)
  | Err (e : E).
Arguments Ok {A E} a.
Arguments Err {A E} e.

(* ===================================================================== *)
(** ** src/cache.rs *)
(* ===================================================================== *)

Module Cache.

(** A monotonic [Instant] is a tick count; a [Duration] is a number of ticks.
    [Instant::elapsed] saturates at zero, which nat subtraction does too. *)
Definition Instant := nat.
Definition Duration := nat.

Section Cache.
Context {T : Type}.

Record CacheEntry := {
  data : T;
  created_at : Instant;
  last_accessed : Instant;
}.

(** [CacheEntry::new]: both timestamps are [Instant::now()]. *)
Definition CacheEntry_new (now : Instant) (d : T) : CacheEntry :=
  {| data := d; created_at := now; last_accessed := now |}.

(** [CacheEntry::access]: refresh [last_accessed], return a clone. *)
Definition CacheEntry_access (now : Instant) (e : CacheEntry) : CacheEntry * T :=
  ({| data := data e; created_at := created_at e; last_accessed := now |}, data e).

(** [CacheEntry::age] = [created_at.elapsed()]. *)
Definition CacheEntry_age (now : Instant) (e : CacheEntry) : Duration :=
  now - created_at e.

Record GenericCache := {
  entries : gmap string CacheEntry;
  ttl : Duration;
  max_entries : nat;
}.

Definition GenericCache_new (t : Duration) (m : nat) : GenericCache :=
  {| entries := ∅; ttl := t; max_entries := m |}.

Definition with_entries (c : GenericCache) (m : gmap string CacheEntry) : GenericCache :=
  {| entries := m; ttl := ttl c; max_entries := max_entries c |}.

(** [GenericCache::get]: expired entries are removed lazily. *)
Definition get (c : GenericCache) (now : Instant) (key : string)
  : option T * GenericCache :=
  match entries c !! key with
  | Some e =>
      if CacheEntry_age now e <? ttl c then
        let '(e', v) := CacheEntry_access now e in
        (Some v, with_entries c (<[key := e']> (entries c)))
      else (None, with_entries c (delete key (entries c)))
  | None => (None, c)
  end.

(** [Iterator::min_by_key] on [(key, entry)] pairs keyed by [last_accessed]:
    among equal keys the first element is kept ([cmp::min_by] returns its
    first argument unless the second is strictly smaller). *)
Fixpoint min_by_last_accessed (best : string * CacheEntry)
    (l : list (string * CacheEntry)) : string * CacheEntry :=
  match l with
  | [] => best
  | x :: r =>
      min_by_last_accessed
        (if last_accessed x.2 <? last_accessed best.2 then x else best) r
  end.

Definition lru_key (l : list (string * CacheEntry)) : option string :=
  match l with
  | [] => None
  | x :: r => Some (min_by_last_accessed x r).1
  end.

(** [GenericCache::evict_lru]; the HashMap iteration order is the order of
    [map_to_list]. *)
Definition evict_lru (m : gmap string CacheEntry) : gmap string CacheEntry :=
  match lru_key (map_to_list m) with
  | Some k => delete k m
  | None => m
  end.

(** [GenericCache::set]. *)
Definition set (c : GenericCache) (now : Instant) (key : string) (d : T)
  : GenericCache :=
  let m := entries c in
  let m1 := if (max_entries c <=? size m) && negb (bool_decide (is_Some (m !! key)))
            then evict_lru m else m in
  with_entries c (<[key := CacheEntry_new now d]> m1).

(** [GenericCache::cleanup_expired]: retain the entries younger than [ttl]
    and return how many were removed. *)
Definition cleanup_expired (c : GenericCache) (now : Instant) : nat * GenericCache :=
  let m' := filter (fun kv : string * CacheEntry => CacheEntry_age now kv.2 < ttl c)
              (entries c) in
  (size (entries c) - size m', with_entries c m').

(** [GenericCache::get_or_fetch]: [t_get] is the instant of the probe and
    [t_set] the instant of the store after [fetch_fn] has completed. *)
Definition get_or_fetch (c : GenericCache) (t_get t_set : Instant) (key : string)
    (fetch_fn : unit -> result T DatadogError) : result T DatadogError * GenericCache :=
  let '(cached, c1) := get c t_get key in
  match cached with
  | Some v => (Ok v, c1)
  | None =>
      match fetch_fn tt with
      | Ok d => (Ok d, set c1 t_set key d)
      | Err e => (Err e, c1)
      end
  end.

(** The operations a caller can perform on a cache, with their instants. *)
Inductive CacheOp :=
  | OpGet (now : Instant) (key : string)
  | OpSet (now : Instant) (key : string) (d : T)
  | OpCleanup (now : Instant).

Definition apply_op (c : GenericCache) (o : CacheOp) : GenericCache :=
  match o with
  | OpGet now k => (get c now k).2
  | OpSet now k d => set c now k d
  | OpCleanup now => (cleanup_expired c now).2
  end.

Definition run_ops (c : GenericCache) (ops : list CacheOp) : GenericCache :=
  foldl apply_op c ops.

Definition sets_key (key : string) (o : CacheOp) : bool :=
  match o with
  | OpSet _ k _ => bool_decide (k = key)
  | _ => false
  end.

(** The entry under [key], if any, was created at [t0]. *)
Definition created_at_is (t0 : Instant) (key : string) (c : GenericCache) : Prop :=
  ∀ e, entries c !! key = Some e → created_at e = t0.

End Cache.
Arguments CacheEntry : clear implicits.
Arguments GenericCache : clear implicits.
Arguments CacheOp : clear implicits.

End Cache.

(* ===================================================================== *)
(** ** src/datadog/retry.rs and src/datadog/client.rs *)
(* ===================================================================== *)

Module Retry.

Definition MAX_RETRIES : nat := 3.

(** [calculate_backoff]: [Duration::from_secs(2_u64.pow(retry_count))], in
    seconds. [u64::pow] is modelled as in a release build (overflow checks
    off), where it wraps modulo 2^64; a debug build panics instead. *)
Definition calculate_backoff (retry_count : nat) : Z :=
  (2 ^ Z.of_nat retry_count) mod 2 ^ 64.

(** [should_retry]. *)
Definition should_retry (current_retry : nat) : bool :=
  current_retry <? MAX_RETRIES.

End Retry.

Module Client.
Import Retry.

(** What the executor observes of one HTTP response: its status code, the
    outcome of [response.json::<T>()] (decoded value or the reqwest error
    text) and the outcome of [response.text()]. *)
Record Response (T : Type) := {
  status : Z;
  json_body : result T string;
  text_body : result string string;
}.
Arguments status {T}.
Arguments json_body {T}.
Arguments text_body {T}.

(** Outcome of [request.send().await]: a transport error or a response. *)
Inductive SendOutcome (T : Type) :=
  | SendFailed (e : string)
  | Received (r : Response T).
Arguments SendFailed {T} e.
Arguments Received {T} r.

(** Observable events of [DatadogClient::request]: an attempt (the value of
    [retries] when it is sent) and a backoff sleep (in seconds). *)
Inductive Event :=
  | EvSend (retries : nat)
  | EvSleep (secs : Z).

Section Request.
Context {T : Type}.

(** [StatusCode]'s [Display] (e.g. "404 Not Found"). *)
Variable status_to_string : Z -> string.

(** [StatusCode::is_success]: 200..=299. *)
Definition is_success (s : Z) : bool := (200 <=? s)%Z && (s <=? 299)%Z.

(** [DatadogClient::handle_response]. *)
Definition handle_response (response : Response T) : result T DatadogError :=
  let s := status response in
  if is_success s then
    match json_body response with
    | Ok v => Ok v
    | Err e => Err (NetworkError e)
    end
  else
    let error_text :=
      match text_body response with
      | Ok t => t
      | Err _ => "Unknown error"%string
      end in
    if (s =? 401)%Z || (s =? 403)%Z then Err (AuthError error_text)
    else if (s =? 429)%Z then Err RateLimitError
    else if (s =? 408)%Z then Err TimeoutError
    else Err (ApiError ("HTTP " ++ status_to_string s ++ ": " ++ error_text)%string).

(** The retry loop of [DatadogClient::request]; [send retries] is the
    outcome of the attempt made while the counter equals [retries]. Each
    iteration either returns or increments [retries], and it returns once
    [should_retry retries] is false, so the Rust [loop] runs at most
    [S MAX_RETRIES] iterations; [fuel] counts them ([None]: fuel exhausted,
    shown unreachable for [request] below). *)
Fixpoint request_loop (fuel : nat) (retries : nat) (send : nat -> SendOutcome T)
  : option (result T DatadogError * list Event) :=
  match fuel with
  | O => None
  | S fuel' =>
      match send retries with
      | SendFailed e => Some (Err (NetworkError e), [EvSend retries])
      | Received response =>
          match handle_response response with
          | Ok data => Some (Ok data, [EvSend retries])
          | Err e =>
              if negb (should_retry retries) then Some (Err e, [EvSend retries])
              else
                let retries' := S retries in
                match request_loop fuel' retries' send with
                | Some (r, tr) =>
                    Some (r, EvSend retries :: EvSleep (calculate_backoff retries') :: tr)
                | None => None
                end
          end
      end
  end.

(** [DatadogClient::request] ([retries] starts at 0). *)
Definition request (send : nat -> SendOutcome T)
  : option (result T DatadogError * list Event) :=
  request_loop (S MAX_RETRIES) 0 send.

End Request.

(** The trace of a call whose four attempts all fail with a response. *)
Definition full_trace : list Event :=
  [EvSend 0; EvSleep 2; EvSend 1; EvSleep 4; EvSend 2; EvSleep 8; EvSend 3].

Definition attempts (tr : list Event) : nat :=
  length (omap (fun ev => match ev with EvSend n => Some n | _ => None end) tr).

Definition sleeps (tr : list Event) : list Z :=
  omap (fun ev => match ev with EvSleep d => Some d | _ => None end) tr.

End Client.

(* ===================================================================== *)
(** ** src/server/protocol.rs and src/server/router.rs *)
(* ===================================================================== *)

Module Protocol.

#[local] Set Warnings "-register-all".

(** [serde_json::Value]; numbers are kept as integers. *)
Inductive Value :=
  | VNull
  | VBool (b : bool)
  | VNumber (n : Z)
  | VString (s : string)
  | VArray (l : list Value)
  | VObject (fields : list (string * Value)).

(** Lookup of a key in the fields of an object. *)
Fixpoint field_lookup (k : string) (fields : list (string * Value)) : option Value :=
  match fields with
  | [] => None
  | (k', v) :: r => if bool_decide (k' = k) then Some v else field_lookup k r
  end.

(** [Value::get(&str)]: a field of an object, [None] on any other value. *)
Definition value_get (v : Value) (k : string) : option Value :=
  match v with
  | VObject fields => field_lookup k fields
  | _ => None
  end.

(** [Index<&str> for Value] ([v["k"]]): [Null] when [value_get] fails. *)
Definition index (v : Value) (k : string) : Value :=
  match value_get v k with Some x => x | None => VNull end.

(** [Value::as_str]. *)
Definition as_str (v : Value) : option string :=
  match v with VString s => Some s | _ => None end.

Record JsonRpcRequest := {
  method : string;
  params : option Value;
  id : option Value;
}.

Record JsonRpcError := {
  code : Z;
  message : string;
  data : option Value;
}.

Record JsonRpcResponse := {
  jsonrpc : string;
  result_ : option Value;
  error : option JsonRpcError;
  id_ : option Value;
}.

(** [Server::create_error_response]. *)
Definition create_error_response (c : Z) (msg : string) (i : option Value)
  : JsonRpcResponse :=
  {| jsonrpc := "2.0"; result_ := None;
     error := Some {| code := c; message := msg; data := None |}; id_ := i |}.

(** [Server::create_success_response]. *)
Definition create_success_response (r : Value) (i : option Value) : JsonRpcResponse :=
  {| jsonrpc := "2.0"; result_ := Some r; error := None; id_ := i |}.

(** The tools dispatched by [Server::handle_tool_call]. *)
Inductive Tool :=
  | MetricsQuery | LogsSearch | MonitorsList | MonitorsGet | EventsQuery
  | HostsList | DashboardsList | DashboardsGet | SpansSearch | ServicesList
  | LogsAggregate | LogsTimeseries | RumEventsSearch.

(** The [match tool_name] of [Server::handle_tool_call]. *)
Definition tool_of_name (name : string) : option Tool :=
  match name with
  | "datadog_metrics_query" => Some MetricsQuery
  | "datadog_logs_search" => Some LogsSearch
  | "datadog_monitors_list" => Some MonitorsList
  | "datadog_monitors_get" => Some MonitorsGet
  | "datadog_events_query" => Some EventsQuery
  | "datadog_hosts_list" => Some HostsList
  | "datadog_dashboards_list" => Some DashboardsList
  | "datadog_dashboards_get" => Some DashboardsGet
  | "datadog_spans_search" => Some SpansSearch
  | "datadog_services_list" => Some ServicesList
  | "datadog_logs_aggregate" => Some LogsAggregate
  | "datadog_logs_timeseries" => Some LogsTimeseries
  | "datadog_rum_events_search" => Some RumEventsSearch
  | _ => None
  end%string.

(** The [#[error(...)]] display of [DatadogError]. *)
Definition error_to_string (e : DatadogError) : string :=
  match e with
  | ApiError m => "API request failed: " ++ m
  | AuthError m => "Authentication failed: " ++ m
  | DateParseError m => "Invalid date format: " ++ m
  | NetworkError m => "Network error: " ++ m
  | JsonError m => "JSON parsing error: " ++ m
  | InvalidInput m => "Invalid input: " ++ m
  | RateLimitError => "Rate limit exceeded"
  | TimeoutError => "Timeout occurred"
  end%string.

(** What a request handler does: answer directly (the [Option] response of
    [Ok(..)]) or run a tool handler and build the answer from its result. *)
Inductive Action :=
  | Reply (r : option JsonRpcResponse)
  | CallTool (t : Tool) (arguments : Value)
      (k : result Value DatadogError -> option JsonRpcResponse).

Section Engine.

(** [serde_json::to_string_pretty] on a [Value] (it cannot fail there). *)
Variable to_string_pretty : Value -> string.
(** [serde_json::from_value::<InitializeRequest>]: the protocol version, or
    the serde error text. *)
Variable deserialize_initialize : Value -> result string string.
(** The JSON of the static tool catalog built by [handle_tools_list]. *)
Variable tools_catalog : Value.

(** The content envelope built from a tool handler's result. *)
Definition result_content (r : result Value DatadogError) : Value :=
  match r with
  | Ok d =>
      VObject [("content", VArray [VObject [("type", VString "text");
                                           ("text", VString (to_string_pretty d))]])]
  | Err e =>
      VObject [("content", VArray [VObject [("type", VString "text");
                                           ("text", VString ("Error: " ++ error_to_string e))]]);
               ("isError", VBool true)]
  end.

(** [Server::handle_tool_call] (router.rs); [initialized] is the session
    flag read under the lock. *)
Definition handle_tool_call (initialized : bool) (request : JsonRpcRequest) : Action :=
  if negb initialized then
    Reply (Some (create_error_response (-32002) "Server not initialized" (id request)))
  else
    match params request with
    | None => Reply (Some (create_error_response (-32602) "Missing params" (id request)))
    | Some p =>
        match as_str (index p "name") with
        | None =>
            Reply (Some (create_error_response (-32602) "Missing tool name" (id request)))
        | Some tool_name =>
            let arguments := index p "arguments" in
            match tool_of_name tool_name with
            | Some t =>
                CallTool t arguments
                  (fun r => Some (create_success_response (result_content r) (id request)))
            | None =>
                Reply (Some (create_error_response (-32602)
                               ("Unknown tool: " ++ tool_name) (id request)))
            end
        end
    end.

(** [Server::handle_initialize]. *)
Definition handle_initialize (request : JsonRpcRequest) : Action :=
  match params request with
  | Some p =>
      match deserialize_initialize p with
      | Ok protocol_version =>
          Reply (Some (create_success_response
            (VObject [("protocolVersion", VString protocol_version);
                      ("serverInfo", VObject [("name", VString "datadog-mcp-server");
                                              ("version", VString "0.1.0")]);
                      ("capabilities", VObject [("tools", VObject [])])])
            (id request)))
      | Err e =>
          Reply (Some (create_error_response (-32602) ("Invalid params: " ++ e) (id request)))
      end
  | None => Reply (Some (create_error_response (-32602) "Missing params" (id request)))
  end.

(** [Server::handle_tools_list] (schema.rs). *)
Definition handle_tools_list (initialized : bool) (request : JsonRpcRequest) : Action :=
  if negb initialized then
    Reply (Some (create_error_response (-32002) "Server not initialized" (id request)))
  else Reply (Some (create_success_response tools_catalog (id request))).

(** [Server::process_request]: the new session flag and the action. Every
    arm returns [Ok], so the [Err] arm of [run] is never taken. *)
Definition process_request (initialized : bool) (request : JsonRpcRequest)
  : bool * Action :=
  match method request with
  | "initialize" => (initialized, handle_initialize request)
  | "initialized" | "notifications/initialized" => (true, Reply None)
  | "tools/list" => (initialized, handle_tools_list initialized request)
  | "tools/call" => (initialized, handle_tool_call initialized request)
  | "prompts/list" =>
      (initialized, Reply (Some (create_success_response
                                   (VObject [("prompts", VArray [])]) (id request))))
  | "resources/list" =>
      (initialized, Reply (Some (create_success_response
                                   (VObject [("resources", VArray [])]) (id request))))
  | "shutdown" => (initialized, Reply (Some (create_success_response (VObject []) (id request))))
  | "exit" => (initialized, Reply None)
  | "notifications/cancelled" | "notifications/progress" => (initialized, Reply None)
  | m =>
      (initialized, Reply (Some {| jsonrpc := "2.0"; result_ := None;
                                   error := Some {| code := -32601;
                                                    message := "Method not found: " ++ m;
                                                    data := None |};
                                   id_ := id request |}))
  end%string.

(** [str::trim], [serde_json::from_str::<JsonRpcRequest>] and
    [serde_json::from_str::<Value>] (error: the parser's diagnostic text). *)
Variable str_trim : string -> string.
Variable parse_request : string -> result JsonRpcRequest string.
Variable parse_value : string -> result Value string.
(** The tool handlers of src/handlers (called with the client and cache). *)
Variable exec_tool : Tool -> Value -> result Value DatadogError.

(** One iteration of the loop of [Server::run] on a line for which
    [read_line] returned a positive byte count: the new session flag and the
    responses written to stdout, in order (writes are taken to succeed). *)
Definition run_line (initialized : bool) (buffer : string)
  : bool * list JsonRpcResponse :=
  let line := str_trim buffer in
  if bool_decide (line = EmptyString) then (initialized, [])
  else
    match parse_request line with
    | Err e =>
        match parse_value line with
        | Ok partial =>
            match value_get partial "id" with
            | Some i =>
                let error_response :=
                  create_error_response (-32700) "Parse error" (Some i) in
                (initialized,
                 [{| jsonrpc := jsonrpc error_response; result_ := result_ error_response;
                     error := Some {| code := -32700; message := "Parse error";
                                      data := Some (VObject [("details", VString e)]) |};
                     id_ := id_ error_response |}])
            | None => (initialized, [])
            end
        | Err _ => (initialized, [])
        end
    | Ok request =>
        let '(initialized', act) := process_request initialized request in
        match act with
        | Reply (Some response) => (initialized', [response])
        | Reply None => (initialized', [])
        | CallTool t args k =>
            match k (exec_tool t args) with
            | Some response => (initialized', [response])
            | None => (initialized', [])
            end
        end
    end.

(** The loop of [Server::run] over successive lines, each read returning a
    positive byte count (writes are taken to succeed): the final session
    flag and every response written, in order. *)
Fixpoint run_lines (initialized : bool) (lines : list string)
  : bool * list JsonRpcResponse :=
  match lines with
  | [] => (initialized, [])
  | buffer :: rest =>
      let '(initialized', out) := run_line initialized buffer in
      let '(initialized'', out') := run_lines initialized' rest in
      (initialized'', out ++ out')
  end.

End Engine.

(** A stand-in for [serde_json::from_str::<Value>] on a malformed line that
    still carries an "id" (any other input, the empty line included, is
    rejected). *)
Definition toy_parse_value (s : string) : result Value string :=
  if bool_decide (s = "{id: 7, oops"%string) then Ok (VObject [("id", VNumber 7)])
  else Err "EOF while parsing"%string.

End Protocol.

(* ===================================================================== *)
(** ** src/handlers/common.rs and src/handlers/monitors.rs *)
(* ===================================================================== *)

Module Handlers.
Import Cache Protocol.

(** [usize] arithmetic on a 64-bit target as in a release build: it wraps
    modulo 2^64 (a debug build panics on overflow instead; the theorems
    below that depend on it exclude overflow by hypothesis). *)
Definition usize_modulus : Z := 2 ^ 64.
Definition wrap_usize (z : Z) : Z := z mod usize_modulus.

(** [Value::as_u64] on the integers of [Value]. *)
Definition as_u64 (v : Value) : option Z :=
  match v with
  | VNumber n => if (0 <=? n)%Z && (n <? usize_modulus)%Z then Some n else None
  | _ => None
  end.

(** [Paginator::parse_pagination]. *)
Definition parse_pagination (params : Value) : Z * Z :=
  (default 0%Z (as_u64 (index params "page")),
   default 50%Z (as_u64 (index params "page_size"))).

Section Paginate.
Context {A : Type}.

(** [&data[s..e]] for [s <= e <= data.len()]. *)
Definition slice (data : list A) (s e : Z) : list A :=
  take (Z.to_nat (e - s)) (drop (Z.to_nat s) data).

(** [Paginator::paginate]; [None] is the panic of [&data[start..end]] when
    [end < start]. *)
Definition paginate (data : list A) (page page_size : Z) : option (list A) :=
  let start := wrap_usize (page * page_size) in
  let end_ := Z.min (wrap_usize (start + page_size)) (Z.of_nat (length data)) in
  if (start <? Z.of_nat (length data))%Z then
    if (end_ <? start)%Z then None else Some (slice data start end_)
  else Some [].

End Paginate.

(** [ResponseFormatter::format_pagination]. *)
Definition format_pagination (page page_size total : Z) : Value :=
  VObject [("page", VNumber page); ("page_size", VNumber page_size);
           ("total", VNumber total);
           ("has_next", VBool (wrap_usize (wrap_usize (page + 1) * page_size) <? total)%Z)].

(** [str::split(',')] (44 is the code of the comma): the pieces between commas, empty ones included; the
    empty string gives one empty piece. *)
Fixpoint split_comma (s : string) : list string :=
  match s with
  | EmptyString => [EmptyString]
  | String ch rest =>
      match split_comma rest with
      | piece :: pieces =>
          if bool_decide (ch = Ascii.ascii_of_nat 44) then EmptyString :: piece :: pieces
          else String ch piece :: pieces
      | [] => [String ch EmptyString]
      end
  end.

Section TagFilter.
(** [str::trim]. *)
Variable str_trim : string -> string.

(** The test [prefixes.iter().any(|p| tag.starts_with(p))]. *)
Definition matches_prefix (prefixes : list string) (tag : string) : bool :=
  existsb (fun p => String.prefix p tag) prefixes.

(** [TagFilter::filter_tags]. *)
Definition filter_tags (tags : list string) (filter : string) : list string :=
  if bool_decide (filter = "*"%string) then tags
  else if bool_decide (filter = EmptyString) then []
  else
    let prefixes := map str_trim (split_comma filter) in
    List.filter (matches_prefix prefixes) tags.

(** [TagFilter::filter_tags_map] (inlined verbatim in [HostsHandler::list]):
    the loop inserting each source whose filtered tags are non-empty builds
    the map [omap] gives. *)
Definition filter_tags_map (tags_map : option (gmap string (list string))) (filter : string)
  : option (gmap string (list string)) :=
  if bool_decide (filter = "*"%string) then tags_map
  else if bool_decide (filter = EmptyString) then None
  else
    let prefixes := map str_trim (split_comma filter) in
    (fun m : gmap string (list string) => omap (fun tags =>
                      let filtered_tags := List.filter (matches_prefix prefixes) tags in
                      if bool_decide (filtered_tags = []) then None else Some filtered_tags) m)
      <$> tags_map.
End TagFilter.

(** [str::is_char_boundary] on the UTF-8 bytes of a string. *)
Definition is_char_boundary (s : string) (i : nat) : bool :=
  match String.get i s with
  | Some b => negb ((128 <=? Ascii.nat_of_ascii b) && (Ascii.nat_of_ascii b <? 192))
  | None => i =? String.length s
  end.

(** [ResponseFilter::truncate_long_string]; [None] is the panic of
    [&s[..max_len]] when [max_len] is inside a UTF-8 sequence. *)
Definition truncate_long_string (s : string) (max_len : nat) : option string :=
  if String.length s <=? max_len then Some s
  else if is_char_boundary s max_len then Some (String.substring 0 max_len s ++ "...")%string
  else None.

(** The [let monitors = if page == 0 {..} else {..}] step of
    [MonitorsHandler::list] on the monitors cache. On page 0 the monitors
    are fetched, stored at [t_set] and read back through [get_or_fetch] at
    [t_get] with a producer that is [unreachable!] (its call, a panic, is
    [None]); on other pages [get_or_fetch] probes at [t_get] and stores at
    [t_store] with [list_monitors] as producer. *)
Definition monitors_fetch {M : Type} (cache : GenericCache (list M)) (page : Z)
    (t_set t_get t_store : Instant) (cache_key : string)
    (list_monitors : unit -> result (list M) DatadogError)
  : option (result (list M) DatadogError * GenericCache (list M)) :=
  if (page =? 0)%Z then
    match list_monitors tt with
    | Err e => Some (Err e, cache)
    | Ok fresh_monitors =>
        let cache1 := set cache t_set cache_key fresh_monitors in
        let '(cached, cache2) := get cache1 t_get cache_key in
        match cached with
        | Some v => Some (Ok v, cache2)
        | None => None
        end
    end
  else Some (get_or_fetch cache t_get t_store cache_key list_monitors).

End Handlers.

(* ===================================================================== *)
(** * Proofs: the cache *)
(* ===================================================================== *)

Module CacheProofs.
Import Cache.

Section Props.
Context {T : Type}.
Implicit Types (c : GenericCache T) (m : gmap string (CacheEntry T)).

Lemma with_entries_entries c m : entries (with_entries c m) = m.
Proof. reflexivity. Qed.

Lemma with_entries_max c m : max_entries (with_entries c m) = max_entries c.
Proof. reflexivity. Qed.

Lemma with_entries_ttl c m : ttl (with_entries c m) = ttl c.
Proof. reflexivity. Qed.

(** The fold behind [min_by_key] returns an element of the list that is
    minimal for [last_accessed]. *)
Lemma min_by_last_accessed_spec (best : string * CacheEntry T) l :
  (min_by_last_accessed best l = best ∨ min_by_last_accessed best l ∈ l) ∧
  last_accessed (min_by_last_accessed best l).2 ≤ last_accessed best.2 ∧
  ∀ x, x ∈ l → last_accessed (min_by_last_accessed best l).2 ≤ last_accessed x.2.
Proof.
  revert best. induction l as [|y l IH]; intros best; simpl.
  - split; [by left|]. split; [lia|]. intros x Hx. inversion Hx.
  - set (b' := if last_accessed y.2 <? last_accessed best.2 then y else best).
    assert (Hb : last_accessed b'.2 ≤ last_accessed best.2 ∧
                 last_accessed b'.2 ≤ last_accessed y.2 ∧ (b' = best ∨ b' = y)).
    { unfold b'. destruct (Nat.ltb_spec (last_accessed y.2) (last_accessed best.2));
        [split; [lia|]; split; [lia|]; by right
        |split; [lia|]; split; [lia|]; by left]. }
    destruct (IH b') as (Hin & Hle & Hall).
    split; [|split].
    + destruct Hin as [Heq|Hin].
      * rewrite Heq. destruct Hb as (_ & _ & [->| ->]); [by left|right; constructor].
      * right. by constructor.
    + lia.
    + intros x Hx. apply elem_of_cons in Hx as [->|Hx]; [lia|]. by apply Hall.
Qed.

(** [evict_lru] on a non-empty map removes a key whose entry has the
    smallest [last_accessed]. *)
Lemma evict_lru_spec m :
  m ≠ ∅ →
  ∃ k e, m !! k = Some e ∧
    (∀ k' e', m !! k' = Some e' → last_accessed e ≤ last_accessed e') ∧
    evict_lru m = delete k m.
Proof.
  intros Hne. unfold evict_lru, lru_key.
  destruct (map_to_list m) as [|x r] eqn:Hl.
  { by apply map_to_list_empty_iff in Hl. }
  destruct (min_by_last_accessed_spec x r) as (Hin & Hle & Hall).
  set (p := min_by_last_accessed x r) in *.
  exists p.1, p.2. split; [|split].
  - apply elem_of_map_to_list. rewrite Hl. destruct p as [k e]; simpl.
    destruct Hin as [Heq|Hin]; [rewrite Heq; constructor|by constructor].
  - intros k' e' Hk'. apply elem_of_map_to_list in Hk'. rewrite Hl in Hk'.
    apply elem_of_cons in Hk' as [<-|Hk']; [exact Hle|]. by apply (Hall (k', e')).
  - reflexivity.
Qed.

Lemma evict_lru_size m : m ≠ ∅ → size (evict_lru m) = pred (size m).
Proof.
  intros Hne. destruct (evict_lru_spec m Hne) as (k & e & Hk & _ & ->).
  apply map_size_delete_Some. by eexists.
Qed.

Lemma evict_lru_lookup_None m key : m !! key = None → evict_lru m !! key = None.
Proof.
  intros H. unfold evict_lru. destruct (lru_key _); [|done].
  rewrite lookup_delete. by case_decide.
Qed.

Lemma evict_lru_lookup_Some m k e : evict_lru m !! k = Some e → m !! k = Some e.
Proof.
  unfold evict_lru. destruct (lru_key _); [|done].
  rewrite lookup_delete. by case_decide.
Qed.

(** [set] on a key that is absent, at capacity. *)
Lemma set_evicts c now key d :
  entries c !! key = None → max_entries c ≤ size (entries c) →
  entries (set c now key d) = <[key := CacheEntry_new now d]> (evict_lru (entries c)).
Proof.
  intros Hk Hcap. unfold set. rewrite Hk.
  replace (max_entries c <=? size (entries c)) with true by (symmetry; apply Nat.leb_le; lia).
  reflexivity.
Qed.

(** [set] on a key that is already present never evicts. *)
Lemma set_present c now key d e0 :
  entries c !! key = Some e0 →
  entries (set c now key d) = <[key := CacheEntry_new now d]> (entries c).
Proof.
  intros Hk. unfold set. rewrite Hk.
  rewrite (bool_decide_eq_true_2 (is_Some (Some e0))) by (by eexists).
  by rewrite andb_false_r.
Qed.

Lemma set_below_capacity c now key d :
  size (entries c) < max_entries c →
  entries (set c now key d) = <[key := CacheEntry_new now d]> (entries c).
Proof.
  intros Hs. unfold set.
  replace (max_entries c <=? size (entries c)) with false by (symmetry; apply Nat.leb_gt; lia).
  reflexivity.
Qed.

(** The size bound is preserved by [set] when the capacity is positive. *)
Lemma set_size_le c now key d :
  1 ≤ max_entries c → size (entries c) ≤ max_entries c →
  size (entries (set c now key d)) ≤ max_entries c.
Proof.
  intros Hpos Hle.
  destruct (entries c !! key) as [e0|] eqn:Hk.
  - rewrite (set_present _ _ _ _ e0 Hk), map_size_insert_Some by (by eexists). lia.
  - destruct (decide (max_entries c ≤ size (entries c))) as [Hcap|Hcap].
    + rewrite set_evicts by done.
      assert (Hne : entries c ≠ ∅).
      { intros He. rewrite He, map_size_empty in Hcap. lia. }
      rewrite map_size_insert_None by (by apply evict_lru_lookup_None).
      rewrite evict_lru_size by done. lia.
    + rewrite set_below_capacity by lia.
      rewrite map_size_insert_None by done. lia.
Qed.

Lemma get_size c now key : size (entries (get c now key).2) ≤ size (entries c).
Proof.
  unfold get. destruct (entries c !! key) as [e|] eqn:Hk; [|done].
  destruct (CacheEntry_age now e <? ttl c); simpl.
  - rewrite map_size_insert_Some by (by eexists). lia.
  - rewrite map_size_delete_Some by (by eexists). lia.
Qed.

Lemma cleanup_size c now :
  size (entries (cleanup_expired c now).2) ≤ size (entries c).
Proof. apply map_subseteq_size, map_filter_subseteq. Qed.

Lemma apply_op_max c o : max_entries (apply_op c o) = max_entries c.
Proof.
  destruct o; simpl; [unfold get; destruct (entries c !! key); [destruct (_ <? _)|] | |];
    reflexivity.
Qed.

Lemma apply_op_size c o :
  1 ≤ max_entries c → size (entries c) ≤ max_entries c →
  size (entries (apply_op c o)) ≤ max_entries c.
Proof.
  intros Hpos Hle. destruct o as [now k|now k d|now]; unfold apply_op.
  - etrans; [apply get_size|exact Hle].
  - by apply set_size_le.
  - etrans; [apply cleanup_size|exact Hle].
Qed.

Lemma run_ops_max c ops : max_entries (run_ops c ops) = max_entries c.
Proof.
  unfold run_ops. revert c. induction ops as [|o ops IH]; intros c; simpl; [done|].
  by rewrite IH, apply_op_max.
Qed.

Lemma run_ops_size c ops :
  1 ≤ max_entries c → size (entries c) ≤ max_entries c →
  size (entries (run_ops c ops)) ≤ max_entries c.
Proof.
  unfold run_ops. revert c. induction ops as [|o ops IH]; intros c Hpos Hle; simpl; [done|].
  rewrite <- (apply_op_max c o). apply IH; rewrite apply_op_max; [done|].
  by apply apply_op_size.
Qed.

End Props.
End CacheProofs.

Module CacheExpiry.
Import Cache CacheProofs.

Section Expiry.
Context {T : Type}.
Implicit Types (c : GenericCache T).

Lemma apply_op_ttl c o : ttl (apply_op c o) = ttl c.
Proof.
  destruct o; simpl; [unfold get; destruct (entries c !! key); [destruct (_ <? _)|] | |];
    reflexivity.
Qed.

Lemma run_ops_ttl c ops : ttl (run_ops c ops) = ttl c.
Proof.
  unfold run_ops. revert c. induction ops as [|o ops IH]; intros c; simpl; [done|].
  by rewrite IH, apply_op_ttl.
Qed.

Lemma apply_op_created_at t0 key c o :
  sets_key key o = false → created_at_is t0 key c → created_at_is t0 key (apply_op c o).
Proof.
  intros Hs Hc e. destruct o as [now k|now k d|now]; simpl.
  - unfold get. destruct (entries c !! k) as [e1|] eqn:Hk; [|apply Hc].
    destruct (CacheEntry_age now e1 <? ttl c); simpl.
    + rewrite lookup_insert. case_decide as Heq.
      * subst k. intros [= <-]. simpl. by apply Hc.
      * apply Hc.
    + rewrite lookup_delete. case_decide; [done|apply Hc].
  - simpl in Hs. apply bool_decide_eq_false in Hs.
    unfold set. simpl. rewrite lookup_insert_ne by done.
    destruct (_ && _); [|apply Hc].
    intros He. apply Hc. by apply evict_lru_lookup_Some.
  - intros He. apply map_lookup_filter_Some in He as [He _]. by apply Hc.
Qed.

Lemma run_ops_created_at t0 key c ops :
  forallb (fun o => negb (sets_key key o)) ops = true →
  created_at_is t0 key c → created_at_is t0 key (run_ops c ops).
Proof.
  unfold run_ops. revert c. induction ops as [|o ops IH]; intros c Hall Hc; simpl; [done|].
  simpl in Hall. apply andb_prop in Hall as [Ho Hall].
  apply IH; [done|]. apply apply_op_created_at; [|done].
  by destruct (sets_key key o).
Qed.

Lemma set_created_at c t0 key d : created_at_is t0 key (set c t0 key d).
Proof. intros e. unfold set. simpl. rewrite lookup_insert_eq. by intros [= <-]. Qed.

Lemma get_miss_entries c now key c1 :
  get c now key = (None, c1) → entries c1 = delete key (entries c).
Proof.
  unfold get. destruct (entries c !! key) as [e|] eqn:Hk.
  - destruct (CacheEntry_age now e <? ttl c); [done|]. by intros [= <-].
  - intros [= <-]. by rewrite delete_id.
Qed.

Lemma get_hit c now key v c1 :
  get c now key = (Some v, c1) → ∃ e, entries c !! key = Some e ∧ v = data e.
Proof.
  unfold get. destruct (entries c !! key) as [e|] eqn:Hk; [|done].
  destruct (CacheEntry_age now e <? ttl c); [|done]. intros [= <- _]. by exists e.
Qed.

End Expiry.
End CacheExpiry.

(* ===================================================================== *)
(** * Claims: the cache *)
(* ===================================================================== *)

Module CacheClaims.
Import Cache CacheProofs CacheExpiry.

(** C1 (as stated) fails for [max_entries = 0]: setting a new key in an
    empty cache of capacity 0 leaves one entry, since [evict_lru] finds
    nothing to remove and the insertion happens anyway. *)
Lemma set_capacity_zero_exceeded :
  size (entries (set (@GenericCache_new nat 10 0) 0 "a" 7)) >
  max_entries (set (@GenericCache_new nat 10 0) 0 "a" 7).
Proof. vm_compute. lia. Qed.

(** C1 (amended): for a cache constructed with capacity [n ≥ 1] and then
    driven by any sequence of gets, sets and sweeps, a call to [set] leaves
    at most [n] entries and always stores the new entry; when the key is new
    and the map is at capacity, the map afterwards is the map before with
    one entry removed, whose [last_accessed] is minimal among the entries
    present before the insertion, plus the inserted key. *)
Theorem set_capacity_lru {T : Type} (t : Duration) (n : nat) (ops : list (CacheOp T))
    (now : Instant) (key : string) (d : T) (Hn : 1 ≤ n) :
  let c := run_ops (GenericCache_new t n) ops in
  size (entries (set c now key d)) ≤ n ∧
  entries (set c now key d) !! key = Some (CacheEntry_new now d) ∧
  (entries c !! key = None → n ≤ size (entries c) →
   ∃ k e, entries c !! k = Some e ∧
     (∀ k' e', entries c !! k' = Some e' → last_accessed e ≤ last_accessed e') ∧
     entries (set c now key d) = <[key := CacheEntry_new now d]> (delete k (entries c))).
Proof.
  intros c.
  assert (Hmax : max_entries c = n) by (unfold c; by rewrite run_ops_max).
  assert (Hsz : size (entries c) ≤ n).
  { unfold c. apply (run_ops_size (GenericCache_new t n) ops); simpl; [lia|].
    rewrite map_size_empty. lia. }
  clearbody c. split; [|split].
  - rewrite <- Hmax. apply set_size_le; rewrite Hmax; [exact Hn|exact Hsz].
  - unfold set. simpl. apply lookup_insert_eq.
  - intros Hk Hcap. rewrite set_evicts; [|done|rewrite Hmax; exact Hcap].
    assert (Hne : entries c ≠ ∅).
    { intros He. rewrite He, map_size_empty in Hcap. lia. }
    destruct (evict_lru_spec (entries c) Hne) as (k & e & He & Hmin & ->).
    by exists k, e.
Qed.

Lemma set_capacity_lru_witness :
  1 ≤ 1 ∧
  size (entries (set (run_ops (GenericCache_new 10 1) [OpSet 0 "a" 1]) 5 "b" (2 : nat))) ≤ 1.
Proof.
  split; [lia|].
  exact (proj1 (set_capacity_lru 10 1 [OpSet 0 "a" 1] 5 "b" 2 ltac:(lia))).
Defined.

(** C4: [get] misses on an absent key; removes and misses on an entry whose
    age is at least [ttl]; otherwise refreshes [last_accessed] and returns
    the stored value. Moreover, after [set] at [t0], whatever gets, sweeps
    and sets of other keys follow, a [get] of the key at any [now] with
    [t0 + ttl ≤ now] returns nothing. *)
Theorem get_spec_and_expiry {T : Type} :
  (∀ (c : GenericCache T) now key,
     entries c !! key = None → get c now key = (None, c)) ∧
  (∀ (c : GenericCache T) now key e,
     entries c !! key = Some e → ttl c ≤ CacheEntry_age now e →
     get c now key = (None, with_entries c (delete key (entries c)))) ∧
  (∀ (c : GenericCache T) now key e,
     entries c !! key = Some e → CacheEntry_age now e < ttl c →
     get c now key =
       (Some (data e),
        with_entries c (<[key := {| data := data e; created_at := created_at e;
                                    last_accessed := now |}]> (entries c)))) ∧
  (∀ (c : GenericCache T) t0 key d ops now,
     forallb (fun o => negb (sets_key key o)) ops = true →
     t0 + ttl c ≤ now →
     (get (run_ops (set c t0 key d) ops) now key).1 = None).
Proof.
  split; [|split; [|split]].
  - intros c now key Hk. unfold get. by rewrite Hk.
  - intros c now key e Hk Hage. unfold get. rewrite Hk.
    replace (CacheEntry_age now e <? ttl c) with false by (symmetry; apply Nat.ltb_ge; lia).
    reflexivity.
  - intros c now key e Hk Hage. unfold get. rewrite Hk.
    replace (CacheEntry_age now e <? ttl c) with true by (symmetry; apply Nat.ltb_lt; lia).
    reflexivity.
  - intros c t0 key d ops now Hops Hnow.
    pose proof (run_ops_created_at t0 key _ ops Hops (set_created_at c t0 key d)) as Hc.
    pose proof (run_ops_ttl (set c t0 key d) ops) as Ht.
    set (c' := run_ops (set c t0 key d) ops) in *. clearbody c'.
    unfold get. destruct (entries c' !! key) as [e|] eqn:Hk; [|done].
    apply Hc in Hk. unfold CacheEntry_age. rewrite Ht, Hk.
    replace (now - t0 <? ttl (set c t0 key d)) with false; [done|].
    symmetry. apply Nat.ltb_ge. simpl. lia.
Qed.

Lemma get_spec_and_expiry_witness :
  (get (run_ops (set (@GenericCache_new nat 10 5) 3 "k" 1) [OpGet 4 "k"; OpSet 5 "j" 2])
       13 "k").1 = None.
Proof.
  apply (proj2 (proj2 (proj2 get_spec_and_expiry))); [reflexivity|simpl; lia].
Defined.

(** C3 (as stated) fails: when [key] holds an expired entry, the probe
    removes it, so a failing producer leaves the cache changed. *)
Lemma get_or_fetch_failure_changes_cache :
  let c := set (@GenericCache_new nat 10 100) 0 "k" 1 in
  (get_or_fetch c 20 20 "k" (fun _ => Err TimeoutError)).1 = Err TimeoutError ∧
  entries (get_or_fetch c 20 20 "k" (fun _ => Err TimeoutError)).2 ≠ entries c.
Proof.
  simpl. split; [reflexivity|].
  intros H. apply (f_equal (lookup "k")) in H. vm_compute in H. discriminate.
Qed.

(** C3 (amended): on a hit, [get_or_fetch] returns the stored value and its
    result does not depend on the producer; on a miss it returns the
    producer's result: a success is stored under [key] by [set], a failure
    is returned with nothing stored, the map being the one before with
    [key]'s (expired) entry removed, if there was one. *)
Theorem get_or_fetch_spec {T : Type} (c : GenericCache T) t_get t_set key :
  (∀ v c1, get c t_get key = (Some v, c1) →
     (∃ e, entries c !! key = Some e ∧ v = data e) ∧
     ∀ fetch_fn, get_or_fetch c t_get t_set key fetch_fn = (Ok v, c1)) ∧
  (∀ c1, get c t_get key = (None, c1) →
     (∀ fetch_fn d, fetch_fn tt = Ok d →
        get_or_fetch c t_get t_set key fetch_fn = (Ok d, set c1 t_set key d) ∧
        entries (set c1 t_set key d) !! key = Some (CacheEntry_new t_set d)) ∧
     (∀ fetch_fn e, fetch_fn tt = Err e →
        get_or_fetch c t_get t_set key fetch_fn = (Err e, c1) ∧
        entries c1 = delete key (entries c))).
Proof.
  split.
  - intros v c1 Hg. split; [by eapply get_hit|].
    intros fetch_fn. unfold get_or_fetch. by rewrite Hg.
  - intros c1 Hg. split.
    + intros fetch_fn d Hf. unfold get_or_fetch. rewrite Hg, Hf. split; [done|].
      unfold set. simpl. apply lookup_insert_eq.
    + intros fetch_fn e Hf. unfold get_or_fetch. rewrite Hg, Hf. split; [done|].
      by eapply get_miss_entries.
Qed.

Lemma get_or_fetch_spec_witness :
  get_or_fetch (set (@GenericCache_new nat 10 100) 0 "k" 1) 5 6 "k" (fun _ => Ok 9) =
  (Ok 1, (get (set (@GenericCache_new nat 10 100) 0 "k" 1) 5 "k").2).
Proof.
  apply (proj1 (get_or_fetch_spec _ 5 6 "k") 1); reflexivity.
Defined.

(** C9: [set] on a key already present replaces its entry by a fresh one
    (both timestamps the instant of the call) and evicts nothing: the size
    and every other entry are unchanged. *)
Theorem set_overwrite {T : Type} (c : GenericCache T) now key (d : T) e0
    (Hk : entries c !! key = Some e0) :
  size (entries (set c now key d)) = size (entries c) ∧
  (∀ k, k ≠ key → entries (set c now key d) !! k = entries c !! k) ∧
  entries (set c now key d) !! key =
    Some {| data := d; created_at := now; last_accessed := now |}.
Proof.
  rewrite (set_present _ _ _ _ e0 Hk). split; [|split].
  - apply map_size_insert_Some. by eexists.
  - intros k Hne. by apply lookup_insert_ne.
  - apply lookup_insert_eq.
Qed.

Lemma set_overwrite_witness :
  entries (set (@GenericCache_new nat 10 100) 0 "k" 1) !! "k" =
    Some (CacheEntry_new 0 1) ∧
  entries (set (set (@GenericCache_new nat 10 100) 0 "k" 1) 7 "k" 2) !! "k" =
    Some {| data := 2; created_at := 7; last_accessed := 7 |}.
Proof.
  split; [reflexivity|].
  apply (set_overwrite _ 7 "k" 2 (CacheEntry_new 0 1)). reflexivity.
Defined.

End CacheClaims.

(* ===================================================================== *)
(** * Claims: the retry policy and the request executor *)
(* ===================================================================== *)

Module ClientClaims.
Import Retry Client.

Section Exec.
Context {T : Type}.
Variable status_to_string : Z -> string.

Ltac run_attempt send :=
  match goal with
  | |- context [send ?i] =>
      let r := fresh "r" in let Hs := fresh "Hs" in
      destruct (send i) as [?|r] eqn:Hs; simpl;
      [|let h := fresh "h" in let Hh := fresh "Hh" in
        destruct (handle_response status_to_string r) as [?|h] eqn:Hh; simpl]
  end.

(** Every call terminates within its fuel, and its trace is a prefix of
    [full_trace]: attempts 0..3, and before retry [n] a sleep of
    [calculate_backoff n] seconds. *)
Lemma request_trace_prefix (send : nat -> SendOutcome T) :
  ∃ r tr, request status_to_string send = Some (r, tr) ∧ tr `prefix_of` full_trace.
Proof.
  unfold request. simpl.
  repeat run_attempt send;
    eexists _, _; (split; [reflexivity|]); unfold full_trace;
    vm_compute; eexists; reflexivity.
Qed.

(** When every attempt receives a response that [handle_response] turns
    into a failure, four attempts are made and the failure of the last one
    is returned. *)
Lemma request_all_responses_fail (send : nat -> SendOutcome T) :
  (∀ i, ∃ resp e, send i = Received resp ∧ handle_response status_to_string resp = Err e) →
  ∃ resp3 e3, send 3 = Received resp3 ∧ handle_response status_to_string resp3 = Err e3 ∧
    request status_to_string send = Some (Err e3, full_trace).
Proof.
  intros Hall.
  destruct (Hall 0) as (r0 & e0 & H0 & F0), (Hall 1) as (r1 & e1 & H1 & F1),
           (Hall 2) as (r2 & e2 & H2 & F2), (Hall 3) as (r3 & e3 & H3 & F3).
  exists r3, e3. split; [done|]. split; [done|].
  unfold request. simpl. rewrite H0, F0. simpl. rewrite H1, F1. simpl.
  rewrite H2, F2. simpl. rewrite H3, F3. reflexivity.
Qed.

End Exec.

(** C2: [should_retry n] holds exactly for [n < 3], and a call whose
    attempts all get failing responses makes 4 attempts and returns the
    last failure; but a call whose every attempt fails in [send] (a
    transport error, propagated by [?] before the retry check) makes a
    single attempt. *)
Theorem request_retry_count {T : Type} (status_to_string : Z -> string) :
  (∀ n, should_retry n = true ↔ n < 3) ∧
  (∀ send : nat -> SendOutcome T,
     (∀ i, ∃ resp e, send i = Received resp ∧ handle_response status_to_string resp = Err e) →
     ∃ e3 tr, request status_to_string send = Some (Err e3, tr) ∧ attempts tr = 4) ∧
  request status_to_string (fun _ => @SendFailed T "connection refused") =
    Some (Err (NetworkError "connection refused"), [EvSend 0]) ∧
  attempts [EvSend 0] = 1.
Proof.
  split; [|split; [|split]].
  - intros n. unfold should_retry, MAX_RETRIES. apply Nat.ltb_lt.
  - intros send Hall.
    destruct (request_all_responses_fail status_to_string send Hall) as (r3 & e3 & _ & _ & Hr).
    exists e3, full_trace. split; [done|reflexivity].
  - reflexivity.
  - reflexivity.
Qed.

(** C5 (amended): [calculate_backoff n] is [2^n] seconds for every [n] below
    64 (the width of [u64]); the table for 0..3 is 1, 2, 4, 8; and in every
    call the sleep before retry [n] is [calculate_backoff n], so the
    scheduled delays before retries 1, 2, 3 are 2, 4 and 8 seconds. *)
Theorem calculate_backoff_usage {T : Type} (status_to_string : Z -> string) :
  (∀ n : nat, n < 64 → calculate_backoff n = (2 ^ Z.of_nat n)%Z) ∧
  map calculate_backoff [0; 1; 2; 3] = [1; 2; 4; 8]%Z ∧
  full_trace = [EvSend 0; EvSleep (calculate_backoff 1); EvSend 1;
                EvSleep (calculate_backoff 2); EvSend 2;
                EvSleep (calculate_backoff 3); EvSend 3] ∧
  (∀ send : nat -> SendOutcome T,
     ∃ r tr, request status_to_string send = Some (r, tr) ∧ tr `prefix_of` full_trace) ∧
  sleeps full_trace = [2; 4; 8]%Z.
Proof.
  split; [|split; [reflexivity|split; [reflexivity|split; [|reflexivity]]]].
  - intros n Hn. unfold calculate_backoff. apply Z.mod_small. split.
    + apply Z.pow_nonneg. lia.
    + apply Z.pow_lt_mono_r; lia.
  - intros send. apply request_trace_prefix.
Qed.

Lemma calculate_backoff_usage_witness :
  calculate_backoff 10 = 1024%Z.
Proof.
  refine (eq_trans (proj1 (calculate_backoff_usage (T := nat) (fun _ => EmptyString)) 10 _) _);
    [lia|reflexivity].
Defined.

(** C5 (as stated) fails past the width of [u64]: [2^64] does not fit, and
    [calculate_backoff 64] is not [2^64] seconds. *)
Lemma calculate_backoff_overflow : calculate_backoff 64 ≠ (2 ^ 64)%Z.
Proof. vm_compute. discriminate. Qed.

(** C6: the retry decision is not a function of the attempt count alone: a
    first attempt failing in [send] (transport error) is returned at once,
    while a first attempt failing with a 401 response, or with a body that
    does not decode (also a [NetworkError]), is retried up to four
    attempts. *)
Theorem retry_depends_on_failure_path {T : Type} (status_to_string : Z -> string) :
  request status_to_string (fun _ => @SendFailed T "connection refused") =
    Some (Err (NetworkError "connection refused"), [EvSend 0]) ∧
  request status_to_string
    (fun _ => Received {| status := 401; json_body := @Err T string "no body";
                          text_body := Ok "Forbidden" |}) =
    Some (Err (AuthError "Forbidden"), full_trace) ∧
  request status_to_string
    (fun _ => Received {| status := 200; json_body := @Err T string "decode error";
                          text_body := Ok EmptyString |}) =
    Some (Err (NetworkError "decode error"), full_trace).
Proof. split; [reflexivity|split; reflexivity]. Qed.

End ClientClaims.

(* ===================================================================== *)
(** * Claims: the protocol engine *)
(* ===================================================================== *)

Module ProtocolClaims.
Import Protocol.

Lemma process_request_tools_call tsp di cat initialized (request : JsonRpcRequest) :
  method request = "tools/call"%string →
  process_request tsp di cat initialized request =
    (initialized, handle_tool_call tsp initialized request).
Proof. destruct request as [m ps i]. simpl. intros ->. reflexivity. Qed.

(** C7: a [tools/call] request while the session flag is false is answered
    with error -32002 "Server not initialized" carrying the request's id;
    the answer is a [Reply], so no tool handler runs, and the line loop
    writes exactly that response whatever the tool handlers are. *)
Theorem tool_call_uninitialized tsp di cat (request : JsonRpcRequest)
    (Hm : method request = "tools/call"%string) :
  process_request tsp di cat false request =
    (false, Reply (Some (create_error_response (-32002) "Server not initialized"
                                               (id request)))) ∧
  ∀ trim parse_req parse_val exec_tool buffer,
    trim buffer ≠ EmptyString → parse_req (trim buffer) = Ok request →
    run_line tsp di cat trim parse_req parse_val exec_tool false buffer =
      (false, [create_error_response (-32002) "Server not initialized" (id request)]).
Proof.
  assert (Hp : process_request tsp di cat false request =
    (false, Reply (Some (create_error_response (-32002) "Server not initialized"
                                               (id request))))).
  { by rewrite process_request_tools_call. }
  split; [exact Hp|].
  intros trim parse_req parse_val exec_tool buffer Hne Hparse.
  unfold run_line. rewrite bool_decide_eq_false_2 by done. rewrite Hparse, Hp.
  reflexivity.
Qed.

Lemma tool_call_uninitialized_witness :
  process_request (fun _ => EmptyString) (fun _ => Err EmptyString) VNull false
    {| method := "tools/call"; params := None; id := Some (VNumber 1) |} =
  (false, Reply (Some (create_error_response (-32002) "Server not initialized"
                                             (Some (VNumber 1))))).
Proof.
  exact (proj1 (tool_call_uninitialized (fun _ => EmptyString) (fun _ => Err EmptyString) VNull
                  {| method := "tools/call"; params := None; id := Some (VNumber 1) |}
                  eq_refl)).
Defined.

(** C8: a line that fails to parse as a request envelope leaves the session
    flag unchanged; if it cannot be re-parsed as JSON with an "id" field
    nothing is written, and otherwise exactly one response is written:
    error -32700 "Parse error" with that id and the envelope parser's
    diagnostic under "details". (The generic parser rejects the empty
    string, as [serde_json] does.) *)
Theorem parse_failure_output tsp di cat trim parse_req parse_val exec_tool
    (Hempty : ∀ v, parse_val EmptyString ≠ Ok v)
    (initialized : bool) (buffer diag : string)
    (Hfail : parse_req (trim buffer) = Err diag) :
  (run_line tsp di cat trim parse_req parse_val exec_tool initialized buffer).1 = initialized ∧
  ((¬ ∃ partial i, parse_val (trim buffer) = Ok partial ∧ value_get partial "id" = Some i) →
   (run_line tsp di cat trim parse_req parse_val exec_tool initialized buffer).2 = []) ∧
  (∀ partial i, parse_val (trim buffer) = Ok partial → value_get partial "id" = Some i →
   (run_line tsp di cat trim parse_req parse_val exec_tool initialized buffer).2 =
     [{| jsonrpc := "2.0"; result_ := None;
         error := Some {| code := -32700; message := "Parse error";
                          data := Some (VObject [("details", VString diag)]) |};
         id_ := Some i |}]).
Proof.
  unfold run_line.
  destruct (bool_decide (trim buffer = EmptyString)) eqn:Hb.
  - apply bool_decide_eq_true in Hb.
    split; [done|]. split; [done|].
    intros partial i Hv. exfalso. rewrite Hb in Hv. by apply (Hempty partial).
  - rewrite Hfail.
    destruct (parse_val (trim buffer)) as [partial|e] eqn:Hv.
    + destruct (value_get partial "id") as [i|] eqn:Hi.
      * split; [done|]. split.
        -- intros Hn. exfalso. apply Hn. by exists partial, i.
        -- intros partial' i' [= <-] Hi'. rewrite Hi in Hi'. injection Hi' as <-.
           reflexivity.
      * split; [done|]. split; [done|]. intros partial' i' [= <-]. by rewrite Hi.
    + split; [done|]. split; [done|]. by intros partial' i'.
Qed.

Lemma parse_failure_output_witness :
  (run_line (fun _ => EmptyString) (fun _ => Err EmptyString) VNull (fun s => s)
     (fun _ => Err "missing field method"%string) toy_parse_value
     (fun _ _ => Ok VNull) false "{id: 7, oops").2 =
  [{| jsonrpc := "2.0"; result_ := None;
      error := Some {| code := -32700; message := "Parse error";
                       data := Some (VObject [("details", VString "missing field method")]) |};
      id_ := Some (VNumber 7) |}].
Proof.
  refine (proj2 (proj2 (parse_failure_output (fun _ => EmptyString) (fun _ => Err EmptyString)
            VNull (fun s => s) (fun _ => Err "missing field method"%string) toy_parse_value
            (fun _ _ => Ok VNull) _ false "{id: 7, oops" "missing field method" eq_refl))
            (VObject [("id", VNumber 7)]) (VNumber 7) eq_refl eq_refl).
  intros v. vm_compute. discriminate.
Defined.

(** C10: for an initialized session and a [tools/call] request with params,
    a "name" that is absent or not a string yields protocol error -32602
    "Missing tool name", and an unknown name yields -32602
    "Unknown tool: <name>". In every case, an answer given without running
    a tool handler is a protocol error (it has no result), and the answer
    built after running a handler is a success envelope whose content is
    flagged "isError" exactly when the handler failed. *)
Theorem tool_call_protocol_errors tsp di cat (request : JsonRpcRequest) (p : Value)
    (Hm : method request = "tools/call"%string) (Hp : params request = Some p) :
  (as_str (index p "name") = None →
   process_request tsp di cat true request =
     (true, Reply (Some (create_error_response (-32602) "Missing tool name" (id request))))) ∧
  (∀ name, as_str (index p "name") = Some name → tool_of_name name = None →
   process_request tsp di cat true request =
     (true, Reply (Some (create_error_response (-32602) ("Unknown tool: " ++ name)
                                               (id request))))) ∧
  (∀ initialized,
     match handle_tool_call tsp initialized request with
     | Reply r => ∀ resp, r = Some resp → result_ resp = None ∧ error resp ≠ None
     | CallTool _ _ k =>
         ∀ res, ∃ v, k res = Some (create_success_response v (id request)) ∧
           (value_get v "isError" = Some (VBool true) ↔ ∃ e, res = Err e)
     end).
Proof.
  split; [|split].
  - intros Hn. rewrite process_request_tools_call by done.
    unfold handle_tool_call. simpl. rewrite Hp, Hn. reflexivity.
  - intros name Hn Ht. rewrite process_request_tools_call by done.
    unfold handle_tool_call. simpl. rewrite Hp, Hn, Ht. reflexivity.
  - intros initialized. unfold handle_tool_call.
    destruct initialized; simpl;
      [|intros resp [= <-]; split; simpl; [done|discriminate]].
    rewrite Hp.
    destruct (as_str (index p "name")) as [name|];
      [|intros resp [= <-]; split; simpl; [done|discriminate]].
    destruct (tool_of_name name) as [t|];
      [|intros resp [= <-]; split; simpl; [done|discriminate]].
    intros res. eexists. split; [reflexivity|].
    destruct res as [d|e]; simpl.
    + split; [discriminate|]. by intros [? ?].
    + split; [by exists e|done].
Qed.

Lemma tool_call_protocol_errors_witness :
  process_request (fun _ => EmptyString) (fun _ => Err EmptyString) VNull true
    {| method := "tools/call"; params := Some (VObject [("name", VString "nope")]);
       id := Some (VNumber 3) |} =
  (true, Reply (Some (create_error_response (-32602) "Unknown tool: nope" (Some (VNumber 3))))).
Proof.
  exact (proj1 (proj2 (tool_call_protocol_errors (fun _ => EmptyString)
           (fun _ => Err EmptyString) VNull
           {| method := "tools/call"; params := Some (VObject [("name", VString "nope")]);
              id := Some (VNumber 3) |} (VObject [("name", VString "nope")])
           eq_refl eq_refl)) "nope" eq_refl eq_refl).
Defined.

End ProtocolClaims.

(* ===================================================================== *)
(** * Further properties of the cache *)
(* ===================================================================== *)

Module CacheMore.
Import Cache CacheProofs CacheExpiry.

(** [cleanup_expired] keeps exactly the entries younger than [ttl], and the
    count it returns plus the remaining size is the size before (so the
    [usize] subtraction never underflows). *)
Theorem cleanup_expired_spec {T : Type} (c : GenericCache T) (now : Instant) :
  (∀ k e, entries (cleanup_expired c now).2 !! k = Some e ↔
          entries c !! k = Some e ∧ CacheEntry_age now e < ttl c) ∧
  (cleanup_expired c now).1 + size (entries (cleanup_expired c now).2) = size (entries c).
Proof.
  split.
  - intros k e. unfold cleanup_expired. simpl. apply map_lookup_filter_Some.
  - unfold cleanup_expired. simpl.
    pose proof (map_subseteq_size _ _
      (map_filter_subseteq (fun kv : string * CacheEntry T => CacheEntry_age now kv.2 < ttl c)
         (entries c))).
    lia.
Qed.

(** The sweep is invisible to reads: after [cleanup_expired] at [now], a
    [get] at any later instant returns what it would have returned without
    the sweep. *)
Theorem cleanup_then_get {T : Type} (c : GenericCache T) (now now' : Instant) (key : string)
    (Hle : now ≤ now') :
  (get (cleanup_expired c now).2 now' key).1 = (get c now' key).1.
Proof.
  unfold get. simpl.
  destruct (entries c !! key) as [e|] eqn:Hk.
  - destruct (decide (CacheEntry_age now e < ttl c)) as [Hy|Hn].
    + assert (Hf : filter (fun kv : string * CacheEntry T => CacheEntry_age now kv.2 < ttl c)
                     (entries c) !! key = Some e)
        by (apply map_lookup_filter_Some; done).
      rewrite Hf. destruct (CacheEntry_age now' e <? ttl c); reflexivity.
    + assert (Hf : filter (fun kv : string * CacheEntry T => CacheEntry_age now kv.2 < ttl c)
                     (entries c) !! key = None).
      { apply map_lookup_filter_None. right. intros e' He'. rewrite Hk in He'.
        injection He' as <-. done. }
      rewrite Hf.
      replace (CacheEntry_age now' e <? ttl c) with false; [reflexivity|].
      symmetry. apply Nat.ltb_ge. unfold CacheEntry_age in *. lia.
  - assert (Hf : filter (fun kv : string * CacheEntry T => CacheEntry_age now kv.2 < ttl c)
                   (entries c) !! key = None)
      by (apply map_lookup_filter_None; by left).
    by rewrite Hf.
Qed.

Lemma cleanup_then_get_witness :
  (get (cleanup_expired (set (@GenericCache_new nat 10 5) 0 "k" 1) 4).2 6 "k").1 =
  (get (set (@GenericCache_new nat 10 5) 0 "k" 1) 6 "k").1.
Proof. apply cleanup_then_get. lia. Defined.

(** Round trip: the value stored by [set] at [t] is returned by a [get] of
    the same key at any [t'] with [t' - t < ttl], whatever the capacity. *)
Theorem set_get_roundtrip {T : Type} (c : GenericCache T) (t t' : Instant) (key : string) (d : T)
    (Hfresh : t' - t < ttl c) :
  (get (set c t key d) t' key).1 = Some d.
Proof.
  unfold get, set. simpl. rewrite lookup_insert_eq. unfold CacheEntry_age. simpl.
  replace (t' - t <? ttl c) with true by (symmetry; by apply Nat.ltb_lt). reflexivity.
Qed.

Lemma set_get_roundtrip_witness :
  (get (set (@GenericCache_new nat 10 0) 3 "k" 42) 12 "k").1 = Some 42.
Proof. apply set_get_roundtrip. simpl. lia. Defined.



End CacheMore.

(* ===================================================================== *)
(** * Properties of the monitors listing step *)
(* ===================================================================== *)

Module MonitorsMore.
Import Cache Handlers.

(** Page 0 always fetches: when the read-back happens within [ttl] of the
    store, the step returns the result of the fetch just made (never an
    older cached list); on failure the cache is untouched, and on success
    the fresh list is cached under [cache_key], stamped with [t_set] and
    accessed at [t_get]. *)
Theorem monitors_fetch_page0 {M : Type} (cache : GenericCache (list M))
    (t_set t_get t_store : Instant) (cache_key : string)
    (list_monitors : unit -> result (list M) DatadogError)
    (Hfresh : t_get - t_set < ttl cache) :
  ∃ cache2,
    monitors_fetch cache 0 t_set t_get t_store cache_key list_monitors =
      Some (list_monitors tt, cache2) ∧
    (∀ e, list_monitors tt = Err e → cache2 = cache) ∧
    (∀ fresh, list_monitors tt = Ok fresh →
       entries cache2 !! cache_key =
         Some {| data := fresh; created_at := t_set; last_accessed := t_get |}).
Proof.
  unfold monitors_fetch. simpl (0 =? 0)%Z. cbv iota.
  destruct (list_monitors tt) as [fresh|e] eqn:Hl.
  - unfold get at 1. unfold set. simpl. rewrite lookup_insert_eq.
    unfold CacheEntry_age. simpl.
    replace (t_get - t_set <? ttl cache) with true by (symmetry; by apply Nat.ltb_lt).
    eexists. split; [reflexivity|]. split; [discriminate|].
    intros f [= <-]. simpl. apply lookup_insert_eq.
  - exists cache. split; [reflexivity|]. split; [done|discriminate].
Qed.

Lemma monitors_fetch_page0_witness :
  ∃ cache2,
    monitors_fetch (@GenericCache_new (list nat) 300 100) 0 10 12 12 "monitors:1"
      (fun _ => Ok [1; 2]) = Some (Ok [1; 2], cache2) ∧
    (∀ e, @Ok (list nat) DatadogError [1; 2] = Err e → cache2 = GenericCache_new 300 100) ∧
    (∀ fresh, @Ok (list nat) DatadogError [1; 2] = Ok fresh →
       entries cache2 !! "monitors:1"%string =
         Some {| data := fresh; created_at := 10; last_accessed := 12 |}).
Proof.
  apply (monitors_fetch_page0 (GenericCache_new 300 100) 10 12 12 "monitors:1"
           (fun _ => Ok [1; 2])).
  simpl. lia.
Defined.

(** The [unreachable!] producer of page 0 is reached, and the handler
    panics, when the read-back comes [ttl] or more after the store: the
    entry just written has expired and [get_or_fetch] calls the producer. *)
Theorem monitors_fetch_page0_stale {M : Type} (cache : GenericCache (list M))
    (t_set t_get t_store : Instant) (cache_key : string)
    (list_monitors : unit -> result (list M) DatadogError) (fresh : list M)
    (Hok : list_monitors tt = Ok fresh)
    (Hstale : ttl cache ≤ t_get - t_set) :
  monitors_fetch cache 0 t_set t_get t_store cache_key list_monitors = None.
Proof.
  unfold monitors_fetch. simpl (0 =? 0)%Z. cbv iota. rewrite Hok.
  unfold get at 1. unfold set. simpl. rewrite lookup_insert_eq.
  unfold CacheEntry_age. simpl.
  replace (t_get - t_set <? ttl cache) with false by (symmetry; by apply Nat.ltb_ge).
  reflexivity.
Qed.

Lemma monitors_fetch_page0_stale_witness :
  monitors_fetch (@GenericCache_new (list nat) 300 100) 0 10 310 310 "monitors:1"
    (fun _ => Ok [1; 2]) = None.
Proof.
  apply (monitors_fetch_page0_stale (GenericCache_new 300 100) 10 310 310 "monitors:1"
           (fun _ => Ok [1; 2]) [1; 2]); [reflexivity|simpl; lia].
Defined.

End MonitorsMore.

(* ===================================================================== *)
(** * Further properties of the request executor *)
(* ===================================================================== *)

Module ClientMore.
Import Retry Client ClientClaims.

Section Exec.
Context {T : Type}.
Variable status_to_string : Z -> string.

Ltac run_attempt send :=
  match goal with
  | |- context [send ?i] =>
      let r := fresh "r" in let Hs := fresh "Hs" in
      destruct (send i) as [?|r] eqn:Hs; simpl;
      [|let h := fresh "h" in let Hh := fresh "Hh" in
        destruct (handle_response status_to_string r) as [?|h] eqn:Hh; simpl]
  end.

Ltac pass_failure Hfail j :=
  let r := fresh "r" in let e := fresh "e" in
  let H := fresh "H" in let F := fresh "F" in
  destruct (Hfail j) as (r & e & H & F); [lia|]; rewrite H; simpl; rewrite F; simpl.

Lemma handle_response_ok (r : Response T) (v : T) :
  handle_response status_to_string r = Ok v →
  is_success (status r) = true ∧ json_body r = Ok v.
Proof.
  unfold handle_response. destruct (is_success (status r)); [|].
  - destruct (json_body r); intros [=]; subst; auto.
  - destruct ((status r =? 401)%Z || (status r =? 403)%Z); [discriminate|].
    destruct (status r =? 429)%Z; [discriminate|].
    destruct (status r =? 408)%Z; discriminate.
Qed.

(** [handle_response] classifies a response: it succeeds exactly on a 2xx
    status with a decodable body; a 2xx with an undecodable body is a
    [NetworkError]; 401 and 403 give [AuthError], 429 [RateLimitError], 408
    [TimeoutError], every other status [ApiError]; it never produces
    [JsonError], [InvalidInput] or [DateParseError]. *)
Theorem handle_response_classes (r : Response T) :
  match handle_response status_to_string r with
  | Ok v => is_success (status r) = true ∧ json_body r = Ok v
  | Err (NetworkError e) => is_success (status r) = true ∧ json_body r = Err e
  | Err (AuthError _) => status r = 401%Z ∨ status r = 403%Z
  | Err RateLimitError => status r = 429%Z
  | Err TimeoutError => status r = 408%Z
  | Err (ApiError _) =>
      is_success (status r) = false ∧ status r ≠ 401%Z ∧ status r ≠ 403%Z ∧
      status r ≠ 429%Z ∧ status r ≠ 408%Z
  | Err _ => False
  end.
Proof.
  unfold handle_response. destruct (is_success (status r)) eqn:Hs.
  - destruct (json_body r); simpl; auto.
  - destruct (Z.eqb_spec (status r) 401) as [E1|N1]; simpl; [auto|].
    destruct (Z.eqb_spec (status r) 403) as [E2|N2]; simpl; [auto|].
    destruct (Z.eqb_spec (status r) 429) as [E3|N3]; simpl; [auto|].
    destruct (Z.eqb_spec (status r) 408) as [E4|N4]; simpl; [auto|].
    auto 6.
Qed.

(** The attempt that decides a call: if attempts [0..i-1] (with [i <= 3])
    all get responses that [handle_response] rejects, and attempt [i]
    fails in [send] or gets an accepted response, the call returns that
    attempt's outcome after [i] backoff sleeps, with the trace
    [take (2*i+1) full_trace]. *)
Theorem request_decided_at (send : nat -> SendOutcome T) (i : nat) (Hi : i ≤ 3)
    (Hfail : ∀ j, j < i → ∃ resp e, send j = Received resp ∧
                          handle_response status_to_string resp = Err e) :
  (∀ e, send i = SendFailed e →
     request status_to_string send = Some (Err (NetworkError e), take (2 * i + 1) full_trace)) ∧
  (∀ resp v, send i = Received resp → handle_response status_to_string resp = Ok v →
     request status_to_string send = Some (Ok v, take (2 * i + 1) full_trace)).
Proof.
  destruct i as [|[|[|[|i]]]]; [| | | |lia];
    (split; [intros e0 He | intros rr v Hr Hv]); unfold request; simpl;
    repeat match goal with
      | |- context [send ?j] =>
          first [ rewrite He; reflexivity
                | rewrite Hr; simpl; rewrite Hv; reflexivity
                | pass_failure Hfail j ]
      end.
Qed.


(** A call succeeds only through an attempt [i <= 3] that received a 2xx
    response with a decodable body, whose decoded value is the result,
    after [i] attempts that all received rejected responses. *)
Theorem request_ok_origin (send : nat -> SendOutcome T) (v : T) (tr : list Event)
    (H : request status_to_string send = Some (Ok v, tr)) :
  ∃ i resp, i ≤ 3 ∧ send i = Received resp ∧ is_success (status resp) = true ∧
    json_body resp = Ok v ∧ attempts tr = S i ∧
    (∀ j, j < i → ∃ resp' e, send j = Received resp' ∧
                   handle_response status_to_string resp' = Err e).
Proof.
  revert H. unfold request. simpl.
  repeat run_attempt send; intros H; try discriminate H;
    injection H as <- <-;
    match goal with
    | Hs : send ?i = Received ?r, Hh : handle_response _ ?r = Ok _ |- _ =>
        exists i, r; destruct (handle_response_ok r _ Hh) as [Hsucc Hbody];
        split; [lia|]; split; [exact Hs|]; split; [exact Hsucc|]; split; [exact Hbody|];
        split; [reflexivity|]
    end;
    intros j Hj; destruct j as [|[|[|j]]]; try lia; eauto.
Qed.

End Exec.

Lemma request_decided_at_witness :
  request (fun _ => EmptyString)
    (fun j => if (j =? 0)%nat
              then Received {| status := 500; json_body := @Err nat string "no body";
                               text_body := Ok "boom" |}
              else Received {| status := 200; json_body := Ok 7;
                               text_body := Ok EmptyString |}) =
  Some (Ok 7, take 3 full_trace).
Proof.
  refine (proj2 (request_decided_at (T := nat) (fun _ => EmptyString)
    (fun j => if (j =? 0)%nat
              then Received {| status := 500; json_body := @Err nat string "no body";
                               text_body := Ok "boom" |}
              else Received {| status := 200; json_body := Ok 7;
                               text_body := Ok EmptyString |}) 1 ltac:(lia) _) _ 7 eq_refl eq_refl).
  intros j Hj. assert (j = 0) as -> by lia. eexists _, _. split; reflexivity.
Defined.

Lemma request_ok_origin_witness :
  ∃ i resp, i ≤ 3 ∧
    (fun j => if (j =? 0)%nat
              then @Received nat {| status := 429; json_body := Err "no body";
                                    text_body := Ok EmptyString |}
              else Received {| status := 200; json_body := Ok 7;
                               text_body := Ok EmptyString |}) i = Received resp ∧
    is_success (status resp) = true ∧ json_body resp = Ok 7 ∧
    attempts [EvSend 0; EvSleep 2; EvSend 1] = S i ∧
    (∀ j, j < i → ∃ resp' e,
       (fun j => if (j =? 0)%nat
                 then @Received nat {| status := 429; json_body := Err "no body";
                                       text_body := Ok EmptyString |}
                 else Received {| status := 200; json_body := Ok 7;
                                  text_body := Ok EmptyString |}) j = Received resp' ∧
       handle_response (fun _ => EmptyString) resp' = Err e).
Proof.
  apply (request_ok_origin (fun _ => EmptyString)). reflexivity.
Defined.
End ClientMore.

(* ===================================================================== *)
(** * Properties of the handler helpers of handlers/common.rs *)
(* ===================================================================== *)

Module CommonMore.
Import Protocol Handlers.

Section Pages.
Context {A : Type}.
Implicit Types (data : list A).

Lemma wrap_small (z : Z) : (0 ≤ z < usize_modulus)%Z → wrap_usize z = z.
Proof. intros H. unfold wrap_usize. by apply Z.mod_small. Qed.

Lemma wrap_once (z : Z) : (usize_modulus ≤ z < 2 * usize_modulus)%Z →
  wrap_usize z = (z - usize_modulus)%Z.
Proof.
  intros H. unfold wrap_usize.
  replace z with ((z - usize_modulus) + 1 * usize_modulus)%Z at 1 by lia.
  rewrite Z_mod_plus_full. apply Z.mod_small. lia.
Qed.

(** Without overflow (so that [(page + 1) * page_size] fits in [usize]),
    [paginate] never panics and returns the [page_size] items from offset
    [page * page_size] on (fewer at the end, none past the end). *)
Theorem paginate_no_overflow data (page page_size : Z)
    (Hp : (0 ≤ page)%Z) (Hps : (0 ≤ page_size)%Z)
    (Hov : ((page + 1) * page_size < usize_modulus)%Z) :
  paginate data page page_size =
    Some (take (Z.to_nat page_size) (drop (Z.to_nat (page * page_size)) data)) ∧
  length (take (Z.to_nat page_size) (drop (Z.to_nat (page * page_size)) data))
    ≤ Z.to_nat page_size.
Proof.
  split; [|rewrite length_take; lia].
  assert (H0 : (0 ≤ page * page_size)%Z) by nia.
  unfold paginate.
  rewrite (wrap_small (page * page_size)) by nia.
  rewrite (wrap_small (page * page_size + page_size)) by nia.
  destruct (Z.ltb_spec (page * page_size) (Z.of_nat (length data))) as [Hlt|Hge].
  - destruct (Z.ltb_spec (Z.min (page * page_size + page_size) (Z.of_nat (length data)))
                         (page * page_size)) as [Hb|_]; [lia|].
    f_equal. unfold slice.
    destruct (Z.min_spec (page * page_size + page_size) (Z.of_nat (length data)))
      as [[_ ->]|[Hle ->]].
    + by replace (page * page_size + page_size - page * page_size)%Z with page_size by lia.
    + rewrite !take_ge; [done| |]; rewrite length_drop; lia.
  - f_equal. rewrite drop_ge by lia. by rewrite take_nil.
Qed.

Lemma concat_pages data (n k : nat) :
  concat (map (fun p => take n (drop (p * n) data)) (seq 0 k)) = take (k * n) data.
Proof.
  induction k as [|k IH]; [done|].
  rewrite seq_S, map_app, concat_app, IH. simpl. rewrite app_nil_r.
  rewrite take_take_drop. f_equal. lia.
Qed.

(** Walking pages [0, 1, ..., k-1] of a positive size that cover the data
    (without overflow) returns every item exactly once, in order: no page
    panics and their concatenation is the data. *)
Theorem paginate_pages_cover data (page_size : Z) (k : nat)
    (Hps : (0 < page_size)%Z)
    (Hcover : (Z.of_nat (length data) ≤ Z.of_nat k * page_size)%Z)
    (Hov : (Z.of_nat k * page_size < usize_modulus)%Z) :
  ∃ pages, map (fun p => paginate data (Z.of_nat p) page_size) (seq 0 k) = map Some pages ∧
           concat pages = data.
Proof.
  set (n := Z.to_nat page_size).
  assert (Hn : page_size = Z.of_nat n) by (unfold n; lia).
  exists (map (fun p => take n (drop (p * n) data)) (seq 0 k)). split.
  - rewrite map_map. apply map_ext_in. intros p Hin. apply in_seq in Hin.
    rewrite (proj1 (paginate_no_overflow data (Z.of_nat p) page_size ltac:(lia) ltac:(lia)
                      ltac:(nia))).
    f_equal. rewrite Hn, <- Nat2Z.inj_mul, !Nat2Z.id. reflexivity.
  - rewrite concat_pages. apply take_ge. nia.
Qed.

Lemma parse_pagination_range (params : Value) :
  (0 ≤ (parse_pagination params).1 < usize_modulus)%Z ∧
  (0 ≤ (parse_pagination params).2 < usize_modulus)%Z.
Proof.
  unfold parse_pagination, as_u64. simpl.
  split; [destruct (index params "page")|destruct (index params "page_size")]; simpl;
    try (unfold usize_modulus; lia);
    match goal with
    | |- context [if ?c then _ else _] => destruct c eqn:Hc; simpl
    end; try (apply andb_true_iff in Hc; lia); unfold usize_modulus; lia.
Qed.

(** The overflow panic reachable from a request's parameters: when the
    wrapped start [page * page_size] falls inside the data but
    [start + page_size] overflows [usize], the slice end wraps below the
    start and [paginate] panics. *)
Theorem paginate_overflow_panic data (params : Value) (page page_size : Z)
    (Hparse : parse_pagination params = (page, page_size))
    (Hin : (wrap_usize (page * page_size) < Z.of_nat (length data))%Z)
    (Hwrap : (usize_modulus ≤ wrap_usize (page * page_size) + page_size)%Z) :
  paginate data page page_size = None.
Proof.
  destruct (parse_pagination_range params) as [_ Hr]. rewrite Hparse in Hr. simpl in Hr.
  assert (Hs : (0 ≤ wrap_usize (page * page_size) < usize_modulus)%Z)
    by (unfold wrap_usize; apply Z.mod_pos_bound; unfold usize_modulus; lia).
  unfold paginate.
  destruct (Z.ltb_spec (wrap_usize (page * page_size)) (Z.of_nat (length data))); [|lia].
  rewrite (wrap_once (wrap_usize (page * page_size) + page_size)) by lia.
  destruct (Z.ltb_spec (Z.min (wrap_usize (page * page_size) + page_size - usize_modulus)
                              (Z.of_nat (length data)))
                       (wrap_usize (page * page_size))); [reflexivity|lia].
Qed.

(** Without overflow, [has_next] of [format_pagination] over the data's
    length is true exactly when [paginate] for the next page does not
    return an empty slice (it returns items or panics, never [[]]). *)
Theorem format_pagination_has_next data (page page_size : Z)
    (Hp : (0 ≤ page)%Z) (Hps : (0 < page_size)%Z)
    (Hov : ((page + 1) * page_size < usize_modulus)%Z) :
  index (format_pagination page page_size (Z.of_nat (length data))) "has_next" = VBool true ↔
  paginate data (page + 1) page_size ≠ Some [].
Proof.
  unfold format_pagination. cbn -[wrap_usize Z.mul Z.add Z.ltb].
  rewrite (wrap_small (page + 1)) by nia.
  rewrite (wrap_small ((page + 1) * page_size)) by nia.
  unfold paginate. rewrite (wrap_small ((page + 1) * page_size)) by nia.
  set (s := ((page + 1) * page_size)%Z) in *.
  destruct (Z.ltb_spec s (Z.of_nat (length data))) as [Hlt|Hge].
  - split; [intros _|done].
    destruct (Z.ltb_spec (Z.min (wrap_usize (s + page_size)) (Z.of_nat (length data))) s)
      as [|Hend]; [discriminate|].
    intros [= Heq]. apply (f_equal length) in Heq. unfold slice in Heq.
    rewrite length_take, length_drop in Heq. simpl in Heq.
    destruct (Z.lt_ge_cases (s + page_size) usize_modulus) as [Hsm|Hbg].
    + rewrite (wrap_small (s + page_size)) in Hend, Heq by nia. lia.
    + rewrite (wrap_once (s + page_size)) in Hend by (unfold s; nia). lia.
  - split; [discriminate|]. intros H. exfalso. by apply H.
Qed.

End Pages.

Section Tags.
Variable str_trim : string -> string.

Lemma filter_all {B} (f : B -> bool) (l : list B) :
  (∀ x, In x l → f x = true) → List.filter f l = l.
Proof.
  induction l as [|x l IH]; intros H; [done|]. simpl.
  rewrite (H x (or_introl eq_refl)). f_equal. apply IH. intros y Hy. apply H. by right.
Qed.

Lemma filter_sublist {B} (f : B -> bool) (l : list B) : List.filter f l `sublist_of` l.
Proof.
  induction l as [|x l IH]; simpl; [done|].
  destruct (f x); [by apply sublist_skip|by apply sublist_cons].
Qed.

(** [filter_tags] keeps all tags for ["*"], none for [""], and otherwise
    the tags that start with one of the trimmed comma-separated prefixes;
    in every case the result is a sublist of the input, in its order. *)
Theorem filter_tags_spec (tags : list string) (filter : string) :
  (filter = "*"%string → filter_tags str_trim tags filter = tags) ∧
  (filter = EmptyString → filter_tags str_trim tags filter = []) ∧
  filter_tags str_trim tags filter `sublist_of` tags ∧
  (filter ≠ "*"%string → filter ≠ EmptyString → ∀ t,
     In t (filter_tags str_trim tags filter) ↔
     In t tags ∧ ∃ p, In p (split_comma filter) ∧ String.prefix (str_trim p) t = true).
Proof.
  unfold filter_tags. split; [|split; [|split]].
  - intros ->. reflexivity.
  - intros ->. reflexivity.
  - case_decide; [done|]. case_decide; [apply sublist_nil_l|]. apply filter_sublist.
  - intros H1 H2 t. rewrite bool_decide_false by done. rewrite bool_decide_false by done.
    rewrite filter_In. unfold matches_prefix. rewrite existsb_exists.
    split.
    + intros [Ht (p & Hp & Hpre)]. apply in_map_iff in Hp as (q & <- & Hq). eauto.
    + intros [Ht (p & Hp & Hpre)]. split; [done|]. exists (str_trim p).
      split; [by apply in_map|done].
Qed.

(** A piece of the filter that trims to the empty prefix (e.g. the
    trailing comma of ["env:,"]) matches every tag, so the filter keeps all
    tags. *)
Theorem filter_tags_empty_piece (tags : list string) (filter p : string)
    (Hstar : filter ≠ "*"%string) (Hne : filter ≠ EmptyString)
    (Hp : In p (split_comma filter)) (Htrim : str_trim p = EmptyString) :
  filter_tags str_trim tags filter = tags.
Proof.
  unfold filter_tags. rewrite bool_decide_false by done. rewrite bool_decide_false by done.
  apply filter_all. intros t _. unfold matches_prefix. apply existsb_exists.
  exists EmptyString. split; [|by destruct t]. rewrite <- Htrim. by apply in_map.
Qed.

(** [filter_tags_map] is the identity for ["*"] and gives [None] for [""]
    or no map; otherwise each source maps to its tags filtered as by
    [filter_tags], and the sources whose filtered tags are empty are
    dropped. *)
Theorem filter_tags_map_spec (tags_map : option (gmap string (list string))) (filter : string) :
  filter_tags_map str_trim tags_map "*" = tags_map ∧
  filter_tags_map str_trim tags_map EmptyString = None ∧
  filter_tags_map str_trim None filter = None ∧
  (filter ≠ "*"%string → filter ≠ EmptyString → ∀ m, tags_map = Some m →
   ∃ m', filter_tags_map str_trim tags_map filter = Some m' ∧
     ∀ source l, m' !! source = Some l ↔
       ∃ tags, m !! source = Some tags ∧ l = filter_tags str_trim tags filter ∧ l ≠ []).
Proof.
  unfold filter_tags_map. split; [reflexivity|split; [reflexivity|split]].
  - do 2 case_decide; reflexivity.
  - intros H1 H2 m ->. rewrite bool_decide_false by done. rewrite bool_decide_false by done.
    eexists. split; [reflexivity|]. intros source l.
    rewrite lookup_omap. unfold filter_tags.
    rewrite bool_decide_false by done. rewrite bool_decide_false by done.
    destruct (m !! source) as [tags|]; simpl.
    + set (ft := List.filter (matches_prefix (map str_trim (split_comma filter))) tags).
      destruct (decide (ft = [])) as [Hem|Hem].
      * rewrite bool_decide_true by done. split; [discriminate|].
        intros (tags' & [= <-] & -> & Hne). done.
      * rewrite bool_decide_false by done. split.
        -- intros [= <-]. exists tags. split; [done|split; [reflexivity|done]].
        -- intros (tags' & [= <-] & -> & _). done.
    + split; [discriminate|]. intros (tags' & [=] & _).
Qed.

End Tags.

Lemma filter_tags_empty_piece_witness :
  filter_tags (fun s => s) ["env:prod"; "host:a"]%string "env:,"%string =
    ["env:prod"; "host:a"]%string.
Proof.
  apply (filter_tags_empty_piece (fun s => s) _ "env:,"%string EmptyString).
  - discriminate.
  - discriminate.
  - vm_compute. auto.
  - reflexivity.
Defined.

Lemma paginate_no_overflow_witness :
  paginate [1; 2; 3; 4; 5] 1 2 = Some (take 2 (drop 2 [1; 2; 3; 4; 5])) ∧
  length (take 2 (drop 2 [1; 2; 3; 4; 5])) ≤ 2.
Proof.
  apply (paginate_no_overflow [1; 2; 3; 4; 5] 1 2); unfold usize_modulus; lia.
Defined.

Lemma paginate_pages_cover_witness :
  ∃ pages, map (fun p => paginate [1; 2; 3; 4; 5] (Z.of_nat p) 2) (seq 0 3) = map Some pages ∧
           concat pages = [1; 2; 3; 4; 5].
Proof.
  apply (paginate_pages_cover [1; 2; 3; 4; 5] 2 3); simpl; unfold usize_modulus; lia.
Defined.

Lemma paginate_overflow_panic_witness :
  paginate [1; 2] (2 ^ 64 - 1) (2 ^ 64 - 1) = None.
Proof.
  apply (paginate_overflow_panic [1; 2]
           (VObject [("page", VNumber (2 ^ 64 - 1)); ("page_size", VNumber (2 ^ 64 - 1))])).
  - vm_compute. reflexivity.
  - vm_compute. reflexivity.
  - vm_compute. discriminate.
Defined.

Lemma format_pagination_has_next_witness :
  index (format_pagination 1 2 (Z.of_nat (length [1; 2; 3; 4; 5]))) "has_next" = VBool true ↔
  paginate [1; 2; 3; 4; 5] (1 + 1) 2 ≠ Some [].
Proof. apply format_pagination_has_next; unfold usize_modulus; lia. Defined.

End CommonMore.

(* ===================================================================== *)
(** * Properties of [truncate_long_string] *)
(* ===================================================================== *)

Module TruncateMore.
Import Handlers.

Lemma get_in_range (s : string) (n : nat) :
  n < String.length s → ∃ c, String.get n s = Some c.
Proof.
  revert n. induction s as [|c s IH]; intros n Hn; simpl in Hn; [lia|].
  destruct n as [|n]; simpl; [eauto|]. apply IH. lia.
Qed.

Lemma substring_prefix_length (s : string) (n : nat) :
  n ≤ String.length s → String.length (String.substring 0 n s) = n.
Proof.
  revert n. induction s as [|c s IH]; intros n Hn; destruct n as [|n]; simpl in *;
    [done|lia|done|]. f_equal. apply IH. lia.
Qed.

Lemma string_length_append (s1 s2 : string) :
  String.length (s1 ++ s2) = String.length s1 + String.length s2.
Proof. induction s1 as [|c s1 IH]; simpl; [done|]. by rewrite IH. Qed.

(** On a pure-ASCII string [truncate_long_string] never panics: it returns
    the string when it has at most [max_len] bytes, and otherwise its first
    [max_len] bytes followed by "...", [max_len + 3] bytes in all. *)
Theorem truncate_ascii (s : string) (max_len : nat)
    (Hascii : ∀ i c, String.get i s = Some c → Ascii.nat_of_ascii c < 128) :
  ∃ r, truncate_long_string s max_len = Some r ∧
    (String.length s ≤ max_len → r = s) ∧
    (max_len < String.length s →
       r = (String.substring 0 max_len s ++ "...")%string ∧ String.length r = max_len + 3).
Proof.
  unfold truncate_long_string.
  destruct (Nat.leb_spec (String.length s) max_len) as [Hle|Hgt].
  - exists s. split; [done|]. split; [done|lia].
  - destruct (get_in_range s max_len Hgt) as [c Hc].
    unfold is_char_boundary. rewrite Hc.
    pose proof (Hascii _ _ Hc) as Hlt.
    replace (128 <=? Ascii.nat_of_ascii c) with false by (symmetry; apply Nat.leb_gt; lia).
    simpl. eexists. split; [reflexivity|]. split; [lia|]. split; [done|].
    rewrite string_length_append, substring_prefix_length by lia. reflexivity.
Qed.

(** [truncate_long_string] panics exactly when the string is longer than
    [max_len] and its byte at [max_len] is a UTF-8 continuation byte
    (0x80..0xBF), i.e. the cut falls inside a multi-byte character. *)
Theorem truncate_panics_iff (s : string) (max_len : nat) :
  truncate_long_string s max_len = None ↔
  max_len < String.length s ∧
  ∃ c, String.get max_len s = Some c ∧ 128 ≤ Ascii.nat_of_ascii c < 192.
Proof.
  unfold truncate_long_string.
  destruct (Nat.leb_spec (String.length s) max_len) as [Hle|Hgt].
  - split; [discriminate|lia].
  - destruct (get_in_range s max_len Hgt) as [c Hc].
    unfold is_char_boundary. rewrite Hc.
    destruct (Nat.leb_spec 128 (Ascii.nat_of_ascii c));
    destruct (Nat.ltb_spec (Ascii.nat_of_ascii c) 192); simpl.
    + split; [intros _; split; [done|]; exists c; split; [done|lia]|done].
    + split; [discriminate|]. intros (_ & c' & Hc' & Hr).
      injection Hc' as <-. lia.
    + split; [discriminate|]. intros (_ & c' & Hc' & Hr).
      injection Hc' as <-. lia.
    + split; [discriminate|]. intros (_ & c' & Hc' & Hr).
      injection Hc' as <-. lia.
Qed.

Lemma truncate_ascii_witness :
  ∃ r, truncate_long_string "hello world" 5 = Some r ∧
    (String.length "hello world" ≤ 5 → r = "hello world"%string) ∧
    (5 < String.length "hello world" →
       r = (String.substring 0 5 "hello world" ++ "...")%string ∧ String.length r = 5 + 3).
Proof.
  apply truncate_ascii. intros i c H.
  do 11 (destruct i as [|i]; simpl in H; [injection H as <-; vm_compute; lia|]).
  discriminate H.
Defined.

End TruncateMore.

(* ===================================================================== *)
(** * Further properties of the protocol engine *)
(* ===================================================================== *)

Module ProtocolMore.
Import Protocol.

Section Dispatch.
Variable to_string_pretty : Value -> string.
Variable deserialize_initialize : Value -> result string string.
Variable tools_catalog : Value.

Abbreviation process_request := (process_request to_string_pretty deserialize_initialize tools_catalog).
Abbreviation handle_initialize := (handle_initialize deserialize_initialize).
Abbreviation handle_tools_list := (handle_tools_list tools_catalog).
Abbreviation handle_tool_call := (handle_tool_call to_string_pretty).

(** The shapes of the results of [process_request]: the four delegating
    arms, the two notifications that set the flag, and the arms that
    answer directly (or not at all) with the flag unchanged. Proved once by
    splitting the [match] on the method string bit by bit. *)
Lemma process_request_elim (P : bool * Action -> Prop) (b : bool) (r : JsonRpcRequest) :
  (∀ x,
     (x = (b, handle_initialize r) ∧ method r = "initialize"%string) ∨
     (x = (true, Reply None) ∧
        (method r = "initialized"%string ∨ method r = "notifications/initialized"%string)) ∨
     (x = (b, handle_tools_list b r) ∧ method r = "tools/list"%string) ∨
     (x = (b, handle_tool_call b r) ∧ method r = "tools/call"%string) ∨
     x = (b, Reply None) ∨
     (∃ resp, x = (b, Reply (Some resp)) ∧ jsonrpc resp = "2.0"%string ∧ id_ resp = id r) →
     P x) →
  P (process_request b r).
Proof.
  unfold process_request, Protocol.process_request.
  destruct (method r);
  repeat (lazymatch goal with
          | |- _ → P (match ?x with _ => _ end) => destruct x
          end; lazy iota);
  intros H; apply H;
  first
    [ left; split; reflexivity
    | right; left; split; [reflexivity | first [left; reflexivity | right; reflexivity]]
    | do 2 right; left; split; reflexivity
    | do 3 right; left; split; reflexivity
    | do 4 right; left; reflexivity
    | do 5 right; eexists; split; [reflexivity | split; reflexivity] ].
Qed.

(** Only the two "initialized" notifications change the session flag, and
    they set it. *)
Lemma process_request_flag (b : bool) (r : JsonRpcRequest) :
  (process_request b r).1 = b ∨
  ((process_request b r).1 = true ∧
   (method r = "initialized"%string ∨ method r = "notifications/initialized"%string)).
Proof.
  apply (process_request_elim (fun x => x.1 = b ∨ (x.1 = true ∧
           (method r = "initialized"%string ∨ method r = "notifications/initialized"%string)))).
  intros x [[-> _]|[[-> Hm]|[[-> _]|[[-> _]|[->|(resp & -> & _)]]]]]; simpl; auto.
Qed.

(** Every response [process_request] leads to, directly or through the
    continuation of a tool call, is a JSON-RPC 2.0 response carrying the
    request's id. *)
Lemma process_request_responses (b : bool) (r : JsonRpcRequest) :
  match (process_request b r).2 with
  | Reply (Some resp) => jsonrpc resp = "2.0"%string ∧ id_ resp = id r
  | Reply None => True
  | CallTool _ _ k =>
      ∀ res resp, k res = Some resp → jsonrpc resp = "2.0"%string ∧ id_ resp = id r
  end.
Proof.
  apply (process_request_elim (fun x => match x.2 with
    | Reply (Some resp) => jsonrpc resp = "2.0"%string ∧ id_ resp = id r
    | Reply None => True
    | CallTool _ _ k =>
        ∀ res resp, k res = Some resp → jsonrpc resp = "2.0"%string ∧ id_ resp = id r
    end)).
  intros x [[-> _]|[[-> _]|[[-> _]|[[-> _]|[->|(resp & -> & Hj & Hi)]]]]]; simpl; auto.
  - unfold Protocol.handle_initialize.
    destruct (params r) as [p|]; [destruct (deserialize_initialize p)|]; simpl; auto.
  - unfold Protocol.handle_tools_list. destruct b; simpl; auto.
  - unfold Protocol.handle_tool_call. destruct b; simpl; [|auto].
    destruct (params r) as [p|]; simpl; [|auto].
    destruct (as_str (index p "name")) as [n|]; simpl; [|auto].
    destruct (tool_of_name n); simpl; [|auto].
    intros res resp [= <-]. auto.
Qed.


Lemma process_request_initialize (b : bool) (r : JsonRpcRequest) :
  method r = "initialize"%string → process_request b r = (b, handle_initialize r).
Proof. destruct r as [m ps i]. simpl. intros ->. reflexivity. Qed.

Lemma process_request_tools_list (b : bool) (r : JsonRpcRequest) :
  method r = "tools/list"%string → process_request b r = (b, handle_tools_list b r).
Proof. destruct r as [m ps i]. simpl. intros ->. reflexivity. Qed.

Lemma process_request_initialized (b : bool) (r : JsonRpcRequest) :
  method r = "initialized"%string ∨ method r = "notifications/initialized"%string →
  process_request b r = (true, Reply None).
Proof. destruct r as [m ps i]. simpl. intros [-> | ->]; reflexivity. Qed.

(** [initialize] answers every request and never changes the session flag
    (only the "initialized" notification does): a request without params
    gets -32602 "Missing params", params that do not deserialize get
    -32602 "Invalid params: " with the serde error, and otherwise the
    result echoes the protocol version the client sent; the response
    carries the request's id. *)
Theorem initialize_response (b : bool) (r : JsonRpcRequest)
    (Hm : method r = "initialize"%string) :
  (process_request b r).1 = b ∧
  ∃ resp, (process_request b r).2 = Reply (Some resp) ∧
    jsonrpc resp = "2.0"%string ∧ id_ resp = id r ∧
    (params r = None →
       error resp = Some {| code := -32602; message := "Missing params"; data := None |}) ∧
    (∀ p e, params r = Some p → deserialize_initialize p = Err e →
       error resp = Some {| code := -32602; message := "Invalid params: " ++ e;
                            data := None |}) ∧
    (∀ p v, params r = Some p → deserialize_initialize p = Ok v →
       error resp = None ∧
       option_map (fun x => index x "protocolVersion") (result_ resp) = Some (VString v)).
Proof.
  rewrite (process_request_initialize b r Hm). split; [reflexivity|].
  unfold Protocol.handle_initialize.
  destruct (params r) as [p|] eqn:Hp.
  - destruct (deserialize_initialize p) as [v|e] eqn:Hd.
    + eexists. split; [reflexivity|]. simpl. split; [done|]. split; [done|].
      split; [discriminate|]. split.
      * intros p' e' [= <-]. congruence.
      * intros p' v' [= <-]. rewrite Hd. intros [= <-]. split; reflexivity.
    + eexists. split; [reflexivity|]. simpl. split; [done|]. split; [done|].
      split; [discriminate|]. split.
      * intros p' e' [= <-]. rewrite Hd. intros [= <-]. reflexivity.
      * intros p' v' [= <-]. congruence.
  - eexists. split; [reflexivity|]. simpl. split; [done|]. split; [done|].
    split; [done|]. split; intros ? ? [=].
Qed.

(** [tools/list] is gated like [tools/call]: before initialization it is
    answered with -32002 "Server not initialized", afterwards with the tool
    catalog; the flag is unchanged and the response carries the request's
    id. *)
Theorem tools_list_gate (b : bool) (r : JsonRpcRequest)
    (Hm : method r = "tools/list"%string) :
  process_request b r =
    (b, Reply (Some (if b then create_success_response tools_catalog (id r)
                     else create_error_response (-32002) "Server not initialized" (id r)))).
Proof.
  rewrite (process_request_tools_list b r Hm). unfold Protocol.handle_tools_list.
  by destruct b.
Qed.

End Dispatch.

Section Loop.
Variable to_string_pretty : Value -> string.
Variable deserialize_initialize : Value -> result string string.
Variable tools_catalog : Value.
Variable str_trim : string -> string.
Variable parse_request : string -> result JsonRpcRequest string.
Variable parse_value : string -> result Value string.
Variable exec_tool : Tool -> Value -> result Value DatadogError.

Abbreviation run_line := (run_line to_string_pretty deserialize_initialize tools_catalog
                            str_trim parse_request parse_value exec_tool).
Abbreviation run_lines := (run_lines to_string_pretty deserialize_initialize tools_catalog
                             str_trim parse_request parse_value exec_tool).

(** Each line gets at most one response. A response to a line that parses
    as a request is JSON-RPC 2.0 and carries that request's id; a response
    to a line that does not parse is the -32700 parse error, sent only when
    the line is JSON with an "id", whose value it carries. *)
Theorem run_line_output (b : bool) (buffer : string) :
  (run_line b buffer).2 = [] ∨
  ∃ resp, (run_line b buffer).2 = [resp] ∧ jsonrpc resp = "2.0"%string ∧
    (∀ req, parse_request (str_trim buffer) = Ok req → id_ resp = id req) ∧
    (∀ e, parse_request (str_trim buffer) = Err e →
       ∃ partial i, parse_value (str_trim buffer) = Ok partial ∧
         value_get partial "id" = Some i ∧ id_ resp = Some i ∧
         option_map code (error resp) = Some (-32700)%Z).
Proof.
  unfold Protocol.run_line. cbv zeta.
  case_decide; [by left|].
  destruct (parse_request (str_trim buffer)) as [req|e] eqn:Hp.
  - pose proof (process_request_responses to_string_pretty deserialize_initialize
                  tools_catalog b req) as Hr.
    destruct (Protocol.process_request to_string_pretty deserialize_initialize
                tools_catalog b req) as [b' act].
    simpl in Hr. destruct act as [[resp|]|t a k]; simpl.
    + right. exists resp. destruct Hr as [Hj Hi].
      split; [done|]. split; [done|]. split; [by intros req' [= <-]|by intros ? [=]].
    + by left.
    + destruct (k (exec_tool t a)) as [resp|] eqn:Hk; simpl; [|by left].
      right. exists resp. destruct (Hr _ _ Hk) as [Hj Hi].
      split; [done|]. split; [done|]. split; [by intros req' [= <-]|by intros ? [=]].
  - destruct (parse_value (str_trim buffer)) as [partial|?] eqn:Hv; [|by left].
    destruct (value_get partial "id") as [i|] eqn:Hi; [|by left].
    right. eexists. split; [reflexivity|]. split; [reflexivity|]. split; [by intros ? [=]|].
    intros e' _. exists partial, i. split; [done|]. split; [done|]. split; reflexivity.
Qed.

Lemma run_line_flag (b : bool) (buffer : string) :
  (run_line b buffer).1 = b ∨
  ((run_line b buffer).1 = true ∧
   ∃ req, parse_request (str_trim buffer) = Ok req ∧
     (method req = "initialized"%string ∨ method req = "notifications/initialized"%string)).
Proof.
  unfold Protocol.run_line. cbv zeta.
  case_decide; [by left|].
  destruct (parse_request (str_trim buffer)) as [req|e] eqn:Hp.
  - pose proof (process_request_flag to_string_pretty deserialize_initialize
                  tools_catalog b req) as Hf.
    destruct (Protocol.process_request to_string_pretty deserialize_initialize
                tools_catalog b req) as [b' act].
    simpl in Hf. destruct act as [[resp|]|t a k]; simpl;
      [| |destruct (k (exec_tool t a)); simpl];
      (destruct Hf as [->|[-> Hm]]; [by left|right; split; [done|eauto]]).
  - destruct (parse_value (str_trim buffer)) as [partial|?]; [|by left].
    destruct (value_get partial "id"); by left.
Qed.

(** Over a session, at most one response is written per line; once set,
    the session flag stays set; and it becomes set only through a line that
    parses as an "initialized" or "notifications/initialized" request. *)
Theorem run_lines_session (b : bool) (lines : list string) :
  length (run_lines b lines).2 ≤ length lines ∧
  (b = true → (run_lines b lines).1 = true) ∧
  ((run_lines b lines).1 = true →
   b = true ∨ ∃ buffer req, In buffer lines ∧ parse_request (str_trim buffer) = Ok req ∧
     (method req = "initialized"%string ∨ method req = "notifications/initialized"%string)).
Proof.
  revert b. induction lines as [|buffer lines IH]; intros b; simpl.
  - split; [lia|]. split; [done|]. by left.
  - pose proof (run_line_output b buffer) as Ho. pose proof (run_line_flag b buffer) as Hf.
    destruct (run_line b buffer) as [b1 out] eqn:E. simpl in Ho, Hf.
    destruct (IH b1) as (IHlen & IHmono & IHsrc).
    destruct (run_lines b1 lines) as [b2 out'] eqn:E'. simpl in *.
    assert (Hout : length out ≤ 1) by (destruct Ho as [->|(resp & -> & _)]; simpl; lia).
    split; [rewrite length_app; lia|]. split.
    + intros ->. apply IHmono. destruct Hf as [->|[-> _]]; done.
    + intros H2. destruct (IHsrc H2) as [Hb1|(buf & req & Hin & Hp & Hm)].
      * destruct Hf as [<-|[_ (req & Hp & Hm)]]; [by left|].
        right. exists buffer, req. split; [by left|]. done.
      * right. exists buf, req. split; [by right|]. done.
Qed.

(** An "initialized" notification sets the session flag and is not
    answered. *)
Theorem run_line_initialized (b : bool) (buffer : string) (req : JsonRpcRequest)
    (Hline : str_trim buffer ≠ EmptyString)
    (Hp : parse_request (str_trim buffer) = Ok req)
    (Hm : method req = "initialized"%string ∨ method req = "notifications/initialized"%string) :
  run_line b buffer = (true, []).
Proof.
  unfold Protocol.run_line. cbv zeta. rewrite bool_decide_false by done. rewrite Hp.
  rewrite (process_request_initialized to_string_pretty deserialize_initialize tools_catalog
             b req Hm).
  reflexivity.
Qed.

End Loop.

Lemma initialize_response_witness :
  (Protocol.process_request (fun _ => EmptyString) (fun _ => Ok "2024-11-05"%string) VNull false
     {| method := "initialize"; params := Some (VObject []); id := Some (VNumber 1) |}).1
  = false.
Proof.
  exact (proj1 (initialize_response (fun _ => EmptyString) (fun _ => Ok "2024-11-05"%string)
                  VNull false
                  {| method := "initialize"; params := Some (VObject []);
                     id := Some (VNumber 1) |} eq_refl)).
Defined.

Lemma tools_list_gate_witness :
  Protocol.process_request (fun _ => EmptyString) (fun _ => Err "unused"%string) VNull false
    {| method := "tools/list"; params := None; id := Some (VNumber 2) |} =
  (false, Reply (Some (create_error_response (-32002) "Server not initialized"
                         (Some (VNumber 2))))).
Proof.
  exact (tools_list_gate (fun _ => EmptyString) (fun _ => Err "unused"%string) VNull false
           {| method := "tools/list"; params := None; id := Some (VNumber 2) |} eq_refl).
Defined.

Lemma run_line_initialized_witness :
  Protocol.run_line (fun _ => EmptyString) (fun _ => Err "unused"%string) VNull (fun s => s)
    (fun _ => Ok {| method := "notifications/initialized"; params := None; id := None |})
    (fun _ => Err "unused"%string) (fun _ _ => Ok VNull) false
    "{method: notifications/initialized}" = (true, []).
Proof.
  apply (run_line_initialized (fun _ => EmptyString) (fun _ => Err "unused"%string) VNull
           (fun s => s)
           (fun _ => Ok {| method := "notifications/initialized"; params := None; id := None |})
           (fun _ => Err "unused"%string) (fun _ _ => Ok VNull) false
           "{method: notifications/initialized}"
           {| method := "notifications/initialized"; params := None; id := None |}).
  - discriminate.
  - reflexivity.
  - right. reflexivity.
Defined.

End ProtocolMore.
